(** * Verification of [packages/api-docs-builder/buildApiUtils.ts]

    A shallow embedding of the helper functions of the API documentation
    builder, and the proofs of the properties its specification states.

    - ECMAScript strings are sequences of 16-bit code units: [jsstring] is a
      list of code units, each a number ([N]).
    - The methods of [String.prototype] the module calls ([startsWith],
      [indexOf], [replace] with a string pattern, [split] with a one-unit
      separator) are embedded as functions whose first argument is the receiver.
    - Regular expressions are embedded as syntax trees, run by a backtracking
      matcher that follows the continuation semantics of ECMA-262.
    - The file system and the module-level variable [systemComponents] form an
      explicit [World]; the functions that read or write them, or throw, live
      in a small state-and-exception monad.
    - What the module imports from elsewhere (lodash's [kebabCase], prettier,
      [replaceComponentLinks], [getLineFeed], [path.sep], [fs.writeFileSync])
      is a parameter of the functions that call it. *)

From Stdlib Require Import FunctionalExtensionality Ascii String NArith ZArith Lia.
From stdpp Require Import base option list gmap strings.

Set Default Proof Using "Type".

(** ** ECMAScript strings *)

Module JS.

(** A UTF-16 code unit, as a number. (Every code unit is a number; what is
    proved for all lists of numbers holds for all strings.) *)
Definition char : Type := N.

Definition jsstring : Type := list char.

(** The code units of an ASCII literal of the source. *)
Definition lit (s : string) : jsstring :=
  (fun a => N_of_ascii a) <$> list_ascii_of_string s.
Arguments lit s%_string.

(** The code unit of an ASCII character of the source. *)
Definition chr (a : ascii) : char := N_of_ascii a.
Arguments chr a%_char.

Definition char_eqb (x y : char) : bool := (x =? y)%N.

(** [s.startsWith(pat)] *)
Fixpoint startsWith (s pat : jsstring) : bool :=
  match pat, s with
  | [], _ => true
  | _ :: _, [] => false
  | p :: pat', x :: s' => char_eqb x p && startsWith s' pat'
  end.

(** The abstract operation StringIndexOf(s, pat, 0) of ECMA-262: the least
    index at which [pat] occurs in [s], if there is one. *)
Fixpoint StringIndexOf (s pat : jsstring) : option nat :=
  if startsWith s pat then Some 0
  else match s with
       | [] => None
       | _ :: s' => S <$> StringIndexOf s' pat
       end.

(** [s.indexOf(pat)]: the index as a number, [-1] when there is none. *)
Definition indexOf (s pat : jsstring) : Z :=
  match StringIndexOf s pat with
  | Some i => Z.of_nat i
  | None => (-1)%Z
  end.

(** [s.replace(pat, rep)] for a string pattern [pat] and a replacement [rep]
    that holds no [$]: only the first occurrence of [pat] is replaced, and [s]
    is returned as it is when [pat] does not occur. *)
Definition String_replace (s pat rep : jsstring) : jsstring :=
  match StringIndexOf s pat with
  | None => s
  | Some i => take i s ++ rep ++ drop (i + length pat) s
  end.

(** [s.replace(/c/g, rep)] for a pattern that is one code unit [c]: every
    occurrence is replaced. *)
Definition replaceAll_char (s : jsstring) (c : char) (rep : jsstring) : jsstring :=
  s ≫= (fun x => if char_eqb x c then rep else [x]).

(** [s.replace(/^pat/, '')] for a literal [pat]: without the [m] flag [^] only
    matches at index 0, so the pattern is removed when [s] starts with it. *)
Definition remove_prefix (s pat : jsstring) : jsstring :=
  if startsWith s pat then drop (length pat) s else s.

(** The line feed, [\n]. *)
Definition LF : char := 10%N.

(** [s.replace(/\n$/, '')]: without the [m] flag [$] only matches at the end,
    so one final line feed is removed. *)
Fixpoint remove_final_LF (s : jsstring) : jsstring :=
  match s with
  | [] => []
  | [x] => if char_eqb x LF then [] else [x]
  | x :: s' => x :: remove_final_LF s'
  end.

(** [s.split(sep)] for a separator of one code unit [sep]; the result is
    never empty. *)
Fixpoint split (s : jsstring) (sep : char) : list jsstring :=
  match s with
  | [] => [[]]
  | x :: s' =>
      if char_eqb x sep then [] :: split s' sep
      else match split s' sep with
           | piece :: pieces => (x :: piece) :: pieces
           | [] => [[x]]
           end
  end.

(** A value that may be [null] or [undefined] is an [option]; [!!v] on a
    match result tests that it is there. *)
Definition truthy {A} (v : option A) : bool :=
  match v with Some _ => true | None => false end.

(** [pat] occurs in [s]. *)
Definition Occurs (pat s : jsstring) : Prop :=
  ∃ a b, s = a ++ pat ++ b.

(** [s = a ++ pat ++ b], and no occurrence of [pat] in [s] starts before this
    one. *)
Definition FirstOcc (pat s a b : jsstring) : Prop :=
  s = a ++ pat ++ b ∧ ∀ a' b', s = a' ++ pat ++ b' → length a ≤ length a'.

(** [t] is [s] with the first occurrence of [pat] replaced by [rep]; [t] is
    [s] when there is no occurrence. *)
Definition ReplacedFirst (pat rep s t : jsstring) : Prop :=
  (¬ Occurs pat s ∧ t = s) ∨ (∃ a b, FirstOcc pat s a b ∧ t = a ++ rep ++ b).

(** [t] is [s] cut at its first [c]: [t] holds no [c], and [s] is [t], or [t]
    with [c] and more after it. *)
Definition TruncatedAt (c : char) (s t : jsstring) : Prop :=
  (c ∉ t) ∧ (s = t ∨ ∃ rest, s = t ++ c :: rest).

(** The first segment of a pathname that starts with [/]. *)
Definition first_segment (pathname : jsstring) : jsstring :=
  match split (drop 1 pathname) (chr "/") with
  | segment :: _ => segment
  | [] => []
  end.

End JS.

(** ** Regular expressions *)

Module RegExp.
Import JS.

(** The syntax of the patterns the module uses. A class is any set of code
    units: a literal character, [.], [[^/]], [[A-Z]]. *)
Inductive regex : Type :=
| Empty
| Class (p : char → bool)
| Seq (r1 r2 : regex)
| Alt (r1 r2 : regex)             (* r1|r2 *)
| Star (r : regex)                (* r*, greedy *)
| Opt (r : regex)                 (* r?, greedy *)
| Group (n : nat) (r : regex).    (* the n-th capturing group, n ≥ 1 *)

(** LineTerminator: LF, CR, LS and PS; [.] matches every other code unit. *)
Definition is_LineTerminator (x : char) : bool :=
  char_eqb x LF || char_eqb x 13%N || char_eqb x 8232%N || char_eqb x 8233%N.

Definition Dot : regex := Class (fun x => negb (is_LineTerminator x)).
Definition Chr (c : char) : regex := Class (fun x => char_eqb x c).
Definition NotChr (c : char) : regex := Class (fun x => negb (char_eqb x c)).
Definition in_range (lo hi x : char) : bool := (lo <=? x)%N && (x <=? hi)%N.
Definition Range (lo hi : char) : regex := Class (in_range lo hi).

(** [r+] for an atom without groups. *)
Definition Plus (r : regex) : regex := Seq r (Star r).

(** A run of literal characters (an escaped [\.] or [\/] or [\(] of the source
    is the character itself). *)
Definition Literal (l : jsstring) : regex := foldr (fun c r => Seq (Chr c) r) Empty l.
Definition Lit (s : string) : regex := Literal (lit s).

Definition Seqs (rs : list regex) : regex := foldr Seq Empty rs.

(** The capturing groups of a pattern. *)
Fixpoint groups (r : regex) : list nat :=
  match r with
  | Empty | Class _ => []
  | Seq r1 r2 | Alt r1 r2 => groups r1 ++ groups r2
  | Star r1 | Opt r1 => groups r1
  | Group n r1 => n :: groups r1
  end.

(** The captures of a match: index 0 is the whole match, index [n] the text of
    group [n]; an index without a value is [undefined]. *)
Abbreviation captures := (gmap nat jsstring).

(** A continuation takes the rest of the input and the captures so far. *)
Definition Cont : Type := jsstring → captures → option captures.
Definition Matcher : Type := jsstring → captures → Cont → option captures.

Definition clear (gs : list nat) (c : captures) : captures :=
  foldr (fun n acc => delete n acc) c gs.

(** The text consumed between the input [s] and its suffix [s']. *)
Definition consumed (s s' : jsstring) : jsstring := take (length s - length s') s.

(** RepeatMatcher of ECMA-262 for [min = 0], [max = ∞], greedy: the captures
    of the atom are cleared before each iteration, an iteration that consumes
    nothing is refused, and when the atom and what follows it fail the
    continuation runs on the input as it was. Every iteration shortens the
    input, so [S (length s)] units of [fuel] are never used up. *)
Fixpoint RepeatMatcher (fuel : nat) (m : Matcher) (gs : list nat)
    (s : jsstring) (c : captures) (k : Cont) : option captures :=
  match fuel with
  | 0 => k s c
  | S fuel' =>
      match m s (clear gs c)
              (fun s' c' => if decide (length s' < length s)
                            then RepeatMatcher fuel' m gs s' c' k else None) with
      | Some res => Some res
      | None => k s c
      end
  end.

(** The matcher of a pattern, with backtracking by continuations. *)
Fixpoint matcher (r : regex) : Matcher :=
  fun s c k =>
  match r with
  | Empty => k s c
  | Class p =>
      match s with
      | x :: s' => if p x then k s' c else None
      | [] => None
      end
  | Seq r1 r2 => matcher r1 s c (fun s' c' => matcher r2 s' c' k)
  | Alt r1 r2 =>
      match matcher r1 s c k with
      | Some res => Some res
      | None => matcher r2 s c k
      end
  | Star r1 => RepeatMatcher (S (length s)) (matcher r1) (groups r1) s c k
  | Opt r1 =>
      match matcher r1 s (clear (groups r1) c)
              (fun s' c' => if decide (length s' < length s) then k s' c' else None) with
      | Some res => Some res
      | None => k s c
      end
  | Group n r1 => matcher r1 s c (fun s' c' => k s' (<[n := consumed s s']> c'))
  end.

(** One attempt at the start of [s]. *)
Definition match_here (r : regex) (s : jsstring) : option captures :=
  matcher r s ∅ (fun s' c' => Some (<[0 := consumed s s']> c')).

(** [s.match(r)] for a pattern without flags and without anchors: the
    attempts start at index 0, 1, ... up to the end of [s], and the first that
    succeeds is the result; [None] is [null]. *)
Fixpoint exec (r : regex) (s : jsstring) : option captures :=
  match match_here r s with
  | Some c => Some c
  | None => match s with
            | [] => None
            | _ :: s' => exec r s'
            end
  end.

(** [s.match(/^r$/)]: the whole of [s] matches [r]. *)
Definition exec_anchored (r : regex) (s : jsstring) : option captures :=
  matcher r s ∅ (fun s' c' => match s' with [] => Some (<[0 := s]> c') | _ => None end).

(** [always_sets n r]: every path through [r] ends with group [n] set. *)
Fixpoint always_sets (n : nat) (r : regex) : bool :=
  match r with
  | Empty | Class _ | Star _ | Opt _ => false
  | Seq r1 r2 => (always_sets n r1 && bool_decide (n ∉ groups r2)) || always_sets n r2
  | Alt r1 r2 => always_sets n r1 && always_sets n r2
  | Group g r1 => bool_decide (g = n) || always_sets n r1
  end.

End RegExp.

(** ** The world outside the module, and the effects of its functions *)

Module Effects.
Import JS.

(** A plain JavaScript object that holds options: a finite map from property
    names to values. *)
Inductive value : Type :=
| VNum (n : N)
| VBool (b : bool)
| VStr (s : jsstring).

Abbreviation object := (gmap string value).

(** What a function of the module can throw. *)
Inductive exn : Type :=
| Error (message : jsstring)       (* new Error(message) *)
| ENOENT (path : jsstring)         (* fs: no such file or directory *)
| SyntaxError (message : jsstring). (* thrown by the formatter *)

Inductive Outcome (A : Type) : Type :=
| Return (a : A)
| Throw (e : exn).
Arguments Return {A} a.
Arguments Throw {A} e.

(** The files (path to text) and directories (path to entry names) of the file
    system, and the module-level variable [systemComponents], which starts
    out [undefined]. *)
Record World : Type := mkWorld {
  files : gmap jsstring jsstring;
  dirs : gmap jsstring (list jsstring);
  systemComponents : option (list jsstring)
}.

Definition M (A : Type) : Type := World → Outcome A * World.

Definition ret {A} (a : A) : M A := fun w => (Return a, w).
Definition throw {A} (e : exn) : M A := fun w => (Throw e, w).
Definition bind {A B} (m : M A) (f : A → M B) : M B :=
  fun w => match m w with
           | (Return a, w') => f a w'
           | (Throw e, w') => (Throw e, w')
           end.
(** A computation that cannot change the world. *)
Definition reading {A} (f : World → Outcome A) : M A := fun w => (f w, w).
(** A computation that does not look at the world. *)
Definition lift {A} (o : Outcome A) : M A := fun w => (o, w).

Declare Scope eff_scope.
Delimit Scope eff_scope with eff.
Notation "'let*' x ':=' m 'in' k" := (bind m (fun x => k))
  (at level 10, x name, m at level 100, k at level 200) : eff_scope.

(** [fs.readFileSync(path, 'utf8')] *)
Definition readFileSync (path : jsstring) : M jsstring :=
  fun w => match files w !! path with
           | Some text => (Return text, w)
           | None => (Throw (ENOENT path), w)
           end.

(** [fs.readdirSync(path)] *)
Definition readdirSync (path : jsstring) : M (list jsstring) :=
  fun w => match dirs w !! path with
           | Some entries => (Return entries, w)
           | None => (Throw (ENOENT path), w)
           end.

(** Reading and assigning the module-level variable. *)
Definition read_systemComponents : M (option (list jsstring)) :=
  fun w => (Return (systemComponents w), w).
Definition assign_systemComponents (l : list jsstring) : M unit :=
  fun w => (Return tt, mkWorld (files w) (dirs w) (Some l)).

End Effects.

(** ** The functions of [buildApiUtils.ts] *)

Import JS RegExp Effects.
Local Open Scope eff_scope.

(** [path.sep] is ['/'] on POSIX and a backslash on Windows. *)
Inductive Platform : Type := posix | win32.

Definition path_sep (p : Platform) : char :=
  match p with
  | posix => chr "/"
  | win32 => chr "\"
  end.

(** The result of [extractPackageFile]: [None] is [null] in [packagePath] and
    [name], and [undefined] in [muiPackage]. *)
Record PackageFile : Type := mkPackageFile {
  packagePath : option jsstring;
  name : option jsstring;
  muiPackage : option jsstring
}.

(** The result of [parseFile]. *)
Record ParsedFile : Type := mkParsedFile {
  src : jsstring;
  shouldSkip : bool;
  spread : bool;
  EOL : jsstring;
  inheritedComponent : option jsstring
}.

(** An entry of the list [getDemos] returns. *)
Record Demo : Type := mkDemo {
  demoPageTitle : jsstring;
  demoPathname : jsstring
}.

(** [/.*\/packages.*\/(?<packagePath>[^/]+)\/src\/(.*\/)?(?<name>[^/]+)\.(js|tsx|ts|d\.ts)/];
    [packagePath] is group 1 and [name] is group 3. *)
Definition packageFile_re : regex :=
  Seqs [ Star Dot; Lit "/packages"; Star Dot; Chr (chr "/");
         Group 1 (Plus (NotChr (chr "/")));
         Lit "/src/";
         Opt (Group 2 (Seq (Star Dot) (Chr (chr "/"))));
         Group 3 (Plus (NotChr (chr "/")));
         Chr (chr ".");
         Group 4 (Alt (Lit "js") (Alt (Lit "tsx") (Alt (Lit "ts") (Lit "d.ts")))) ].

(** The three markers of a file to skip. *)
Definition ignore_internal_component : jsstring := lit "@ignore - internal component.".
Definition ignore_internal_hook : jsstring := lit "@ignore - internal hook.".
Definition ignore_do_not_document : jsstring := lit "@ignore - do not document.".

(** The pattern of [inheritedComponent]: the text [// @inheritedComponent ]
    and then group 1, a greedy run of [.] *)
Definition inheritedComponent_re : regex :=
  Seq (Lit "// @inheritedComponent ") (Group 1 (Star Dot)).

(** [/^[A-Z][a-zA-Z]+$/], without its anchors. *)
Definition systemComponent_re : regex :=
  Seq (Range (chr "A") (chr "Z"))
      (Plus (Class (fun x => in_range (chr "a") (chr "z") x || in_range (chr "A") (chr "Z") x))).

(** The options [formatType] gives the formatter. *)
Definition formatType_options : object :=
  <["printWidth" := VNum 999]> (<["singleQuote" := VBool true]> (<["semi" := VBool false]>
    (<["trailingComma" := VStr (lit "none")]> (<["parser" := VStr (lit "typescript")]> ∅)))).

Section BuildApiUtils.

(** [replaceComponentLinks] of [./utils/replaceUrl]. *)
Variable replaceComponentLinks : jsstring → jsstring.
(** [kebabCase] of lodash. *)
Variable kebabCase : jsstring → jsstring.
(** [getLineFeed] of [@mui-internal/docs-utilities]. *)
Variable getLineFeed : jsstring → jsstring.
(** [prettier.resolveConfig.sync(filename, options)]: it reads the file
    system, and returns [null] ([None]) when it finds no configuration. *)
Variable resolveConfig_sync : jsstring → object → World → Outcome (option object).
(** [prettier.format(source, options)] *)
Variable prettier_format : jsstring → object → Outcome jsstring.
(** [fs.writeFileSync(file, data, options)]: whether it returns or throws, and
    what the file system holds afterwards, depends on the file system and on
    the options (the flag, the encoding, the mode). *)
Variable writeFileSync : jsstring → jsstring → object → M unit.
(** [path.join(process.cwd(), 'prettier.config.js')], computed when the
    module is loaded. *)
Variable DEFAULT_PRETTIER_CONFIG_PATH : jsstring.
(** [path.resolve('packages', 'mui-system', 'src')] *)
Variable mui_system_src : jsstring.
(** The platform the module runs on. *)
Variable platform : Platform.

Definition fixPathname (pathname : jsstring) : jsstring :=
  if startsWith pathname (lit "/material") then
    replaceComponentLinks (remove_prefix pathname (lit "/material") ++ lit "/")
  else if startsWith pathname (lit "/joy") then
    String_replace
      (replaceComponentLinks (remove_prefix pathname (lit "/joy") ++ lit "/"))
      (lit "material-ui") (lit "joy-ui")
  else if startsWith pathname (lit "/base") then
    String_replace
      (String_replace pathname (lit "/base/") (lit "/base-ui/"))
      (lit "/components/") (lit "/react-")
    ++ lit "/"
  else
    String_replace pathname (lit "/components/") (lit "/react-") ++ lit "/".

(** The optional parameters are [None] when the caller leaves them out. *)
Definition writePrettifiedFile (filename data : jsstring)
    (prettierConfigPath : option jsstring) (options : option object) : M unit :=
  let prettierConfigPath := default DEFAULT_PRETTIER_CONFIG_PATH prettierConfigPath in
  let options := default ∅ options in
  let* prettierConfig :=
    reading (resolveConfig_sync filename {[ "config" := VStr prettierConfigPath ]}) in
  match prettierConfig with
  | None =>
      throw (Error (lit "Could not resolve config for '" ++ filename
                    ++ lit "' using prettier config path '" ++ prettierConfigPath
                    ++ lit "'."))
  | Some prettierConfig =>
      let* formatted :=
        lift (prettier_format data (<["filepath" := VStr filename]> prettierConfig)) in
      writeFileSync filename formatted (options ∪ {[ "encoding" := VStr (lit "utf8") ]})
  end.

(** [!systemComponents] holds while the variable is [undefined]: an array,
    even an empty one, is truthy. *)
Definition getSystemComponents : M (list jsstring) :=
  let* cached := read_systemComponents in
  match cached with
  | Some components => ret components
  | None =>
      let* entries := readdirSync mui_system_src in
      let found :=
        filter (fun pathname => Is_true (truthy (exec_anchored systemComponent_re pathname)))
               entries in
      let* _ := assign_systemComponents found in
      ret found
  end.

Definition getMuiName (name : jsstring) : jsstring :=
  lit "Mui" ++ String_replace name (lit "Styled") [].

Definition extractPackageFile (filePath : jsstring) : PackageFile :=
  let filePath := replaceAll_char filePath (path_sep platform) (lit "/") in
  let match_ := exec packageFile_re filePath in
  let result_packagePath := match match_ with Some m => m !! 1 | None => None end in
  let result_name := match match_ with Some m => m !! 3 | None => None end in
  {| packagePath := result_packagePath;
     name := result_name;
     muiPackage := (fun p => String_replace p (lit "x-") (lit "mui-")) <$> result_packagePath |}.

Definition parseFile (filename : jsstring) : M ParsedFile :=
  let* src := readFileSync filename in
  ret {| src := src;
         shouldSkip :=
           negb (indexOf filename (lit "internal") =? -1)%Z
           || truthy (exec (Literal ignore_internal_component) src)
           || truthy (exec (Literal ignore_internal_hook) src)
           || truthy (exec (Literal ignore_do_not_document) src);
         spread := negb (truthy (exec (Lit " = exactProp(") src));
         EOL := getLineFeed src;
         inheritedComponent :=
           match exec inheritedComponent_re src with
           | Some m => m !! 1
           | None => None
           end |}.

Definition getApiPath (demos : list Demo) (name : jsstring) : option jsstring :=
  match demos with
  | [] => None
  | demo0 :: _ =>
      let cleanedDemosPathname :=
        match split (demoPathname demo0) (chr "#") with
        | piece :: _ => piece
        | [] => lit "undefined"
        end in
      Some (cleanedDemosPathname
            ++ (if startsWith name (lit "use") then lit "hooks-api" else lit "components-api")
            ++ lit "/#" ++ kebabCase name)
  end.

Definition formatType (rawType : jsstring) : Outcome jsstring :=
  match rawType with
  | [] => Return []
  | _ :: _ =>
      let prefix := lit "type FakeType = " in
      let signatureWithTypeName := prefix ++ rawType in
      match prettier_format signatureWithTypeName formatType_options with
      | Throw e => Throw e
      | Return prettifiedSignatureWithTypeName =>
          Return (remove_final_LF (drop (length prefix) prettifiedSignatureWithTypeName))
      end
  end.

End BuildApiUtils.

(** A case conversion to put in the place of [kebabCase]: a hyphen goes
    before every upper-case ASCII letter, which is then lower-cased; on
    [useButton] that is what lodash's [kebabCase] returns. *)
Definition kebab_camel (s : jsstring) : jsstring :=
  s ≫= (fun x => if in_range (chr "A") (chr "Z") x then [chr "-"; (x + 32)%N] else [x]).

(** ** Instances for the examples *)

(** A world with one file, whose text holds a marker. *)
Definition one_file_world : World :=
  {| files := {[ lit "Ripple.js" := lit "// @ignore - internal component." ]};
     dirs := ∅;
     systemComponents := None |}.

(** A write for the examples: the directory is there, the file may be
    written, and the text of the file is replaced. *)
Definition write_text : jsstring → jsstring → object → M unit :=
  fun path data _ w =>
    (Return tt, mkWorld (<[path := data]> (files w)) (dirs w) (systemComponents w)).

(** Options of a caller who sets the mode of the file (0o644). *)
Definition mode_options : object := {[ "mode" := VNum 420 ]}.

(** A write for the examples that finds no directory to write in. *)
Definition write_fails : jsstring → jsstring → object → M unit :=
  fun path _ _ w => (Throw (ENOENT path), w).

(** A formatter that finds no configuration and formats nothing. *)
Definition no_config : jsstring → object → World → Outcome (option object) :=
  fun _ _ _ => Return None.
Definition format_as_is : jsstring → object → Outcome jsstring :=
  fun source _ => Return source.

(** ** The documentation of a compiler symbol *)

(** [lines.join(sep)] for an array of strings. *)
Fixpoint Array_join (lines : list jsstring) (sep : jsstring) : jsstring :=
  match lines with
  | [] => []
  | [line] => line
  | line :: rest => line ++ sep ++ Array_join rest sep
  end.

(** [ts.SymbolDisplayPart]: a piece of a documentation comment. *)
Module SymbolDisplayPart.
Record t : Type := mk { text : jsstring; kind : jsstring }.
End SymbolDisplayPart.

(** [ts.JSDocTagInfo]: a tag of a documentation comment. *)
Module JSDocTagInfo.
Record t : Type := mk { name : jsstring; text : option (list SymbolDisplayPart.t) }.
End JSDocTagInfo.

Section SymbolDocs.

(** [ts.Symbol] and [ts.TypeChecker]; [TypeScriptProject] has the field
    [checker]. *)
Variable Symbol : Type.
Variable TypeChecker : Type.
(** [symbol.getDocumentationComment(checker)] *)
Variable getDocumentationComment : Symbol → TypeChecker → list SymbolDisplayPart.t.
(** [symbol.getJsDocTags()] *)
Variable getJsDocTags : Symbol → list JSDocTagInfo.t.

Record TypeScriptProject : Type := mkProject { checker : TypeChecker }.

Definition getSymbolDescription (symbol : Symbol) (project : TypeScriptProject) : jsstring :=
  Array_join
    (filter (fun line => startsWith line (lit "TODO") = false)
       (getDocumentationComment symbol (checker project)
          ≫= (fun comment => split (SymbolDisplayPart.text comment) LF)))
    [LF].

(** [Object.fromEntries] defines the properties in the order of the entries:
    a later entry with the same key replaces the earlier one. The object is a
    finite map from tag names to tags. *)
Definition getSymbolJSDocTags (symbol : Symbol) : gmap jsstring JSDocTagInfo.t :=
  foldl (fun obj tag => <[JSDocTagInfo.name tag := tag]> obj) ∅ (getJsDocTags symbol).

(** The lines of the comments that do not start with [TODO]. *)
Definition kept_lines (symbol : Symbol) (project : TypeScriptProject) : list jsstring :=
  filter (fun line => startsWith line (lit "TODO") = false)
    (getDocumentationComment symbol (checker project)
       ≫= (fun comment => split (SymbolDisplayPart.text comment) LF)).

End SymbolDocs.

(** A symbol for the examples: its comment has two parts and three lines, and
    two of its tags have the same name. *)
Definition sample_comment : list SymbolDisplayPart.t :=
  [ SymbolDisplayPart.mk (lit "The content." ++ [LF] ++ lit "TODO: describe") (lit "text");
    SymbolDisplayPart.mk (lit "It is a node.") (lit "text") ].

Definition sample_tags : list JSDocTagInfo.t :=
  [ JSDocTagInfo.mk (lit "default") None;
    JSDocTagInfo.mk (lit "deprecated") None;
    JSDocTagInfo.mk (lit "default") (Some []) ].

(** ** What a pattern matches *)

Module RegExpSem.
Import JS RegExp.

(** [MatchesC r w c c']: the pattern [r] can match the text [w], taking the
    captures from [c] to [c']. The relation says which matches there are, not
    which of them the backtracking matcher finds first. *)
Inductive MatchesC : regex → jsstring → captures → captures → Prop :=
| MEmpty c : MatchesC Empty [] c c
| MClass p x c : p x = true → MatchesC (Class p) [x] c c
| MSeq r1 r2 w1 w2 c c1 c2 :
    MatchesC r1 w1 c c1 → MatchesC r2 w2 c1 c2 → MatchesC (Seq r1 r2) (w1 ++ w2) c c2
| MAltL r1 r2 w c c1 : MatchesC r1 w c c1 → MatchesC (Alt r1 r2) w c c1
| MAltR r1 r2 w c c2 : MatchesC r2 w c c2 → MatchesC (Alt r1 r2) w c c2
| MStarNil r c : MatchesC (Star r) [] c c
| MStarCons r w1 w2 c c1 c2 :
    MatchesC r w1 (clear (groups r) c) c1 → MatchesC (Star r) w2 c1 c2 →
    MatchesC (Star r) (w1 ++ w2) c c2
| MOptNone r c : MatchesC (Opt r) [] c c
| MOptSome r w c c1 : MatchesC r w (clear (groups r) c) c1 → MatchesC (Opt r) w c c1
| MGroup n r w c c1 : MatchesC r w c c1 → MatchesC (Group n r) w c (<[n := w]> c1).

End RegExpSem.

(** ** Words for the statements *)

(** The path [extractPackageFile] matches its pattern on. *)
Definition normalized (platform : Platform) (filePath : jsstring) : jsstring :=
  replaceAll_char filePath (path_sep platform) (lit "/").

(** The longest prefix of [s] whose code units are all in the class [p], and
    what is left of [s] after it. *)
Fixpoint take_run (p : char → bool) (s : jsstring) : jsstring :=
  match s with
  | x :: s' => if p x then x :: take_run p s' else []
  | [] => []
  end.

Fixpoint drop_run (p : char → bool) (s : jsstring) : jsstring :=
  match s with
  | x :: s' => if p x then drop_run p s' else s
  | [] => []
  end.

(** The rest of the line: up to the next line terminator. *)
Definition rest_of_line (s : jsstring) : jsstring :=
  take_run (fun x => negb (is_LineTerminator x)) s.

(** A letter of [[a-zA-Z]]. *)
Definition is_letter (x : char) : bool :=
  in_range (chr "a") (chr "z") x || in_range (chr "A") (chr "Z") x.

(** A name [getSystemComponents] keeps: an upper-case letter, then one or
    more letters, and nothing else. *)
Definition component_name (entry : jsstring) : Prop :=
  ∃ x y rest, entry = x :: y :: rest ∧
    in_range (chr "A") (chr "Z") x = true ∧
    is_letter y = true ∧
    Forall (fun z => is_letter z = true) rest.

(** A world with a component file and the source directory of the system
    package. *)
Definition Button_text : jsstring :=
  lit "// @inheritedComponent ButtonBase" ++ [LF] ++ lit "Button.propTypes = exactProp({});".

Definition repo_world : World :=
  {| files := {[ lit "/repo/Button.js" := Button_text ]};
     dirs := {[ lit "/repo/packages/mui-system/src"
                := [lit "Box"; lit "index.js"; lit "Unstable_Grid"; lit "B"; lit "Stack"] ]};
     systemComponents := None |}.

(** A formatter with a configuration for every file, which puts a line feed
    after the source. *)
Definition some_config : jsstring → object → World → Outcome (option object) :=
  fun _ _ _ => Return (Some ∅).
Definition format_with_LF : jsstring → object → Outcome jsstring :=
  fun source _ => Return (source ++ [LF]).
(** A formatter that rejects every source. *)
Definition format_rejects : jsstring → object → Outcome jsstring :=
  fun source _ => Throw (SyntaxError source).

(** * Properties *)

(** ** Strings *)

Module JSFacts.
Import JS.

Lemma char_eqb_eq (x y : char) : char_eqb x y = true ↔ x = y.
Proof. unfold char_eqb. apply N.eqb_eq. Qed.

Lemma startsWith_nil (s : jsstring) : startsWith s [] = true.
Proof. by destruct s. Qed.

Lemma startsWith_spec (s pat : jsstring) :
  startsWith s pat = true ↔ ∃ b, s = pat ++ b.
Proof.
  revert s. induction pat as [|p pat IH]; intros s.
  - rewrite startsWith_nil. split; [by exists s|done].
  - destruct s as [|x s]; simpl.
    + split; [done|]. by intros [b Hb].
    + rewrite andb_true_iff, char_eqb_eq, IH. split.
      * intros [-> [b ->]]. by exists b.
      * intros [b Hb]. injection Hb as -> ->. split; [done|by exists b].
Qed.

Lemma startsWith_drop (s pat : jsstring) :
  startsWith s pat = true → s = pat ++ drop (length pat) s.
Proof.
  intros [b ->]%startsWith_spec. by rewrite drop_app_length.
Qed.

(** An occurrence that starts at index 0 is a prefix. *)
Lemma Occurs_here (pat s b : jsstring) : s = [] ++ pat ++ b → startsWith s pat = true.
Proof. intros ->. apply startsWith_spec. by exists b. Qed.

Lemma StringIndexOf_unfold (s pat : jsstring) :
  StringIndexOf s pat =
  if startsWith s pat then Some 0
  else match s with
       | [] => None
       | _ :: s' => S <$> StringIndexOf s' pat
       end.
Proof. by destruct s. Qed.

Lemma StringIndexOf_Some (s pat : jsstring) (i : nat) :
  StringIndexOf s pat = Some i →
  FirstOcc pat s (take i s) (drop (i + length pat) s).
Proof.
  revert i. induction s as [|x s IH]; intros i; rewrite StringIndexOf_unfold.
  - destruct (startsWith [] pat) eqn:Hp; [|done].
    intros [= <-]. apply startsWith_drop in Hp. split; [exact Hp|]. intros; simpl; lia.
  - destruct (startsWith (x :: s) pat) eqn:Hp.
    + intros [= <-]. apply startsWith_drop in Hp. split; [exact Hp|]. intros; simpl; lia.
    + destruct (StringIndexOf s pat) as [j|] eqn:Hj; [|done].
      intros [= <-]. destruct (IH j eq_refl) as [Heq Hmin]. split.
      * simpl. by rewrite <- Heq.
      * intros [|y a'] b' Hs.
        -- apply Occurs_here in Hs. congruence.
        -- injection Hs as -> Hs. rewrite length_take. simpl.
           specialize (Hmin a' b' Hs). rewrite length_take in Hmin. lia.
Qed.

Lemma StringIndexOf_None (s pat : jsstring) :
  StringIndexOf s pat = None → ¬ Occurs pat s.
Proof.
  induction s as [|x s IH]; rewrite StringIndexOf_unfold.
  - destruct (startsWith [] pat) eqn:Hp; [done|]. intros _ ([|y a] & b & Hs); [|done].
    apply Occurs_here in Hs. congruence.
  - destruct (startsWith (x :: s) pat) eqn:Hp; [done|].
    destruct (StringIndexOf s pat) eqn:Hj; [done|]. intros _ ([|y a] & b & Hs).
    + apply Occurs_here in Hs. congruence.
    + injection Hs as -> Hs. apply IH; [done|]. by exists a, b.
Qed.

Lemma StringIndexOf_Occurs (s pat : jsstring) :
  is_Some (StringIndexOf s pat) ↔ Occurs pat s.
Proof.
  split.
  - intros [i Hi]. apply StringIndexOf_Some in Hi as [Hi _]. by eexists _, _.
  - intros Hocc. destruct (StringIndexOf s pat) eqn:Hi; [done|].
    by apply StringIndexOf_None in Hi.
Qed.

(** The first occurrence is unique. *)
Lemma FirstOcc_unique (pat s a b a' b' : jsstring) :
  FirstOcc pat s a b → FirstOcc pat s a' b' → a = a' ∧ b = b'.
Proof.
  intros [Hs Hmin] [Hs' Hmin'].
  assert (length a = length a') as Hlen.
  { specialize (Hmin _ _ Hs'). specialize (Hmin' _ _ Hs). lia. }
  rewrite Hs in Hs'. apply app_inj_1 in Hs' as [-> Hs']; [|done].
  by apply app_inv_head in Hs' as ->.
Qed.

(** [s.replace(pat, rep)] replaces the first occurrence, and nothing else. *)
Lemma String_replace_spec (s pat rep : jsstring) :
  ReplacedFirst pat rep s (String_replace s pat rep).
Proof.
  unfold ReplacedFirst, String_replace.
  destruct (StringIndexOf s pat) as [i|] eqn:Hi.
  - right. eexists _, _. split; [by apply StringIndexOf_Some|done].
  - left. split; [by apply StringIndexOf_None|done].
Qed.

Lemma ReplacedFirst_unique (pat rep s t t' : jsstring) :
  ReplacedFirst pat rep s t → ReplacedFirst pat rep s t' → t = t'.
Proof.
  intros [[Hno ->]|(a & b & Hab & ->)] [[Hno' ->]|(a' & b' & Hab' & ->)]; try done.
  - destruct Hno. destruct Hab' as [-> _]. by eexists _, _.
  - destruct Hno'. destruct Hab as [-> _]. by eexists _, _.
  - by destruct (FirstOcc_unique _ _ _ _ _ _ Hab Hab') as [-> ->].
Qed.

Lemma String_replace_first (s pat rep a b : jsstring) :
  FirstOcc pat s a b → String_replace s pat rep = a ++ rep ++ b.
Proof.
  intros Hab. apply (ReplacedFirst_unique pat rep s); [apply String_replace_spec|].
  right. by exists a, b.
Qed.

Lemma String_replace_none (s pat rep : jsstring) :
  ¬ Occurs pat s → String_replace s pat rep = s.
Proof.
  intros Hno. apply (ReplacedFirst_unique pat rep s); [apply String_replace_spec|].
  by left.
Qed.

(** A pattern that [s] starts with is the first occurrence. *)
Lemma String_replace_prefix (pat rep rest : jsstring) :
  String_replace (pat ++ rest) pat rep = rep ++ rest.
Proof.
  apply (String_replace_first _ _ _ []). split; [done|]. intros; simpl; lia.
Qed.

Lemma indexOf_Occurs (s pat : jsstring) :
  negb (indexOf s pat =? -1)%Z = true ↔ Occurs pat s.
Proof.
  rewrite <- StringIndexOf_Occurs. unfold indexOf.
  destruct (StringIndexOf s pat) as [i|]; simpl.
  - split; [by eexists|]. intros _. apply negb_true_iff, Z.eqb_neq. lia.
  - split; [done|]. by intros [? ?].
Qed.

Lemma remove_prefix_spec (pat rest : jsstring) : remove_prefix (pat ++ rest) pat = rest.
Proof.
  unfold remove_prefix. rewrite (proj2 (startsWith_spec _ _)) by by exists rest.
  by rewrite drop_app_length.
Qed.

Lemma split_head (s : jsstring) (c : char) :
  ∃ piece pieces, split s c = piece :: pieces ∧ TruncatedAt c s piece.
Proof.
  induction s as [|x s (piece & pieces & Hsplit & Hnot & Hcut)]; simpl.
  - exists [], []. split; [done|]. split; [apply not_elem_of_nil|by left].
  - destruct (char_eqb x c) eqn:Hx.
    + apply char_eqb_eq in Hx as ->. exists [], (split s c).
      split; [done|]. split; [apply not_elem_of_nil|]. right. by exists s.
    + rewrite Hsplit. exists (x :: piece), pieces. split; [done|]. split.
      * rewrite not_elem_of_cons. split; [|done]. intros ->.
        by rewrite (proj2 (char_eqb_eq x x)) in Hx.
      * destruct Hcut as [->|[rest ->]]; [by left|]. right. by exists rest.
Qed.

Lemma TruncatedAt_unique (c : char) (s t t' : jsstring) :
  TruncatedAt c s t → TruncatedAt c s t' → t = t'.
Proof.
  revert s t'. induction t as [|x t IH]; intros s t' [Hnot Hcut] [Hnot' Hcut'].
  - destruct t' as [|x' t']; [done|]. exfalso.
    apply not_elem_of_cons in Hnot' as [Hx' _].
    destruct Hcut as [->|[rest ->]]; destruct Hcut' as [?|[rest' ?]]; simplify_eq/=; done.
  - apply not_elem_of_cons in Hnot as [Hx Hnot].
    destruct t' as [|x' t'].
    + exfalso. destruct Hcut as [->|[rest ->]]; destruct Hcut' as [?|[rest' ?]]; simplify_eq/=; done.
    + apply not_elem_of_cons in Hnot' as [Hx' Hnot'].
      assert (x = x' ∧ ∃ s0, s = x :: s0 ∧ (s0 = t ∨ ∃ rest, s0 = t ++ c :: rest)
              ∧ (s0 = t' ∨ ∃ rest, s0 = t' ++ c :: rest)) as (<- & s0 & -> & H1 & H2).
      { destruct Hcut as [->|[rest ->]]; destruct Hcut' as [?|[rest' ?]]; simplify_eq/=;
          (split; [done|]); eexists; (split; [done|]); naive_solver. }
      f_equal. by apply (IH s0).
Qed.

End JSFacts.

(** ** The matcher *)

Module RegExpFacts.
Import JS RegExp JSFacts.

Lemma clear_lookup (gs : list nat) (c : captures) (n : nat) :
  n ∉ gs → clear gs c !! n = c !! n.
Proof.
  induction gs as [|g gs IH]; [done|]. intros [Hg Hgs]%not_elem_of_cons. simpl.
  rewrite lookup_delete_ne by done. by apply IH.
Qed.

(** *** The fuel of [RepeatMatcher] is enough *)

(** Continuations that agree everywhere are the same continuation. *)
Lemma cont_ext (m : Matcher) (s : jsstring) (c : captures) (k1 k2 : Cont) :
  (∀ s' c', k1 s' c' = k2 s' c') → m s c k1 = m s c k2.
Proof.
  intros Hk. f_equal. extensionality s'. extensionality c'. apply Hk.
Qed.

(** More fuel than the input is long is never used up: the result does not
    depend on it. *)
Lemma RepeatMatcher_fuel (m : Matcher) (gs : list nat) (n1 n2 : nat)
    (s : jsstring) (c : captures) (k : Cont) :
  length s < n1 → length s < n2 →
  RepeatMatcher n1 m gs s c k = RepeatMatcher n2 m gs s c k.
Proof.
  revert n2 s c. induction n1 as [|n1 IH]; intros [|n2] s c H1 H2; try lia.
  simpl.
  rewrite (cont_ext m _ _ _ (λ s' c', if decide (length s' < length s)
                                      then RepeatMatcher n2 m gs s' c' k else None));
    [done|].
  intros s' c'. case_decide; [|done]. apply IH; lia.
Qed.

(** The equation of [r*] in ECMA-262: one more iteration that consumes
    something and then [r*] again, else what follows. *)
Lemma matcher_Star (r : regex) (s : jsstring) (c : captures) (k : Cont) :
  matcher (Star r) s c k =
  match matcher r s (clear (groups r) c)
          (fun s' c' => if decide (length s' < length s)
                        then matcher (Star r) s' c' k else None) with
  | Some res => Some res
  | None => k s c
  end.
Proof.
  simpl.
  rewrite (cont_ext (matcher r) _ _ _ (λ s' c', if decide (length s' < length s)
                                                then matcher (Star r) s' c' k else None));
    [done|].
  intros s' c'. case_decide; [|done].
  change (matcher (Star r) s' c' k)
    with (RepeatMatcher (S (length s')) (matcher r) (groups r) s' c' k).
  apply RepeatMatcher_fuel; lia.
Qed.

(** *** A successful match went through its continuation *)

(** When a matcher succeeds, its result is what the continuation returned, and
    on the way only the captures of the pattern's own groups changed. *)
Lemma RepeatMatcher_frame (m : Matcher) (gs : list nat) :
  (∀ s c k res, m s c k = Some res →
     ∃ s' c', k s' c' = Some res ∧ ∀ n, n ∉ gs → c' !! n = c !! n) →
  ∀ fuel s c k res, RepeatMatcher fuel m gs s c k = Some res →
     ∃ s' c', k s' c' = Some res ∧ ∀ n, n ∉ gs → c' !! n = c !! n.
Proof.
  intros Hm. induction fuel as [|fuel IH]; intros s c k res; simpl.
  - intros Hk. by exists s, c.
  - destruct (m s (clear gs c) _) as [res'|] eqn:Hiter.
    + intros [= ->]. apply Hm in Hiter as (s1 & c1 & Hk1 & Hc1).
      case_decide; [|done]. apply IH in Hk1 as (s2 & c2 & Hk2 & Hc2).
      exists s2, c2. split; [done|]. intros n Hn.
      by rewrite Hc2, Hc1, clear_lookup.
    + intros Hk. by exists s, c.
Qed.

Lemma matcher_frame (r : regex) (s : jsstring) (c : captures) (k : Cont)
    (res : captures) :
  matcher r s c k = Some res →
  ∃ s' c', k s' c' = Some res ∧ ∀ n, n ∉ groups r → c' !! n = c !! n.
Proof.
  revert s c k res.
  induction r as [|p|r1 IH1 r2 IH2|r1 IH1 r2 IH2|r1 IH1|r1 IH1|g r1 IH1];
    intros s c k res; simpl.
  - intros Hk. by exists s, c.
  - destruct s as [|x s]; [done|]. destruct (p x); [|done]. intros Hk. by exists s, c.
  - intros (s1 & c1 & (s2 & c2 & Hk & Hc2)%IH2 & Hc1)%IH1.
    exists s2, c2. split; [done|]. intros n [H1 H2]%not_elem_of_app.
    by rewrite Hc2, Hc1.
  - destruct (matcher r1 s c k) as [res'|] eqn:Hleft.
    + intros [= ->]. apply IH1 in Hleft as (s1 & c1 & Hk & Hc1).
      exists s1, c1. split; [done|]. intros n [H1 H2]%not_elem_of_app. by apply Hc1.
    + intros (s2 & c2 & Hk & Hc2)%IH2.
      exists s2, c2. split; [done|]. intros n [H1 H2]%not_elem_of_app. by apply Hc2.
  - exact (RepeatMatcher_frame (matcher r1) (groups r1) IH1 (S (length s)) s c k res).
  - destruct (matcher r1 s (clear (groups r1) c) _) as [res'|] eqn:Hiter.
    + intros [= ->]. apply IH1 in Hiter as (s1 & c1 & Hk & Hc1).
      case_decide; [|done]. exists s1, c1. split; [done|]. intros n Hn.
      by rewrite Hc1, clear_lookup.
    + intros Hk. by exists s, c.
  - intros (s1 & c1 & Hk & Hc1)%IH1. eexists _, _. split; [exact Hk|].
    intros n [Hg Hn]%not_elem_of_cons. rewrite lookup_insert_ne by done. by apply Hc1.
Qed.

(** *** Groups that take part in every match *)

Lemma matcher_sets (n : nat) (r : regex) (s : jsstring) (c : captures) (k : Cont)
    (res : captures) :
  always_sets n r = true →
  matcher r s c k = Some res →
  ∃ s' c', k s' c' = Some res ∧ is_Some (c' !! n).
Proof.
  revert s c k res.
  induction r as [|p|r1 IH1 r2 IH2|r1 IH1 r2 IH2|r1 IH1|r1 IH1|g r1 IH1];
    intros s c k res; simpl; try done.
  - intros [[H1 Hn%bool_decide_eq_true]%andb_true_iff|H2]%orb_true_iff Hm.
    + apply (IH1 _ _ _ _ H1) in Hm as (s1 & c1 & Hm & Hc1).
      apply matcher_frame in Hm as (s2 & c2 & Hk & Hc2).
      exists s2, c2. split; [done|]. by rewrite Hc2.
    + apply matcher_frame in Hm as (s1 & c1 & Hm & _). by apply (IH2 _ _ _ _ H2) in Hm.
  - intros [H1 H2]%andb_true_iff.
    destruct (matcher r1 s c k) as [res'|] eqn:Hleft.
    + intros [= ->]. by apply (IH1 _ _ _ _ H1) in Hleft.
    + by apply IH2.
  - intros [->%bool_decide_eq_true|H1]%orb_true_iff Hm.
    + apply matcher_frame in Hm as (s1 & c1 & Hk & _).
      eexists _, _. split; [exact Hk|]. rewrite lookup_insert_eq. by eexists.
    + apply (IH1 _ _ _ _ H1) in Hm as (s1 & c1 & Hk & Hc1).
      eexists _, _. split; [exact Hk|].
      destruct (decide (g = n)) as [->|Hne].
      * rewrite lookup_insert_eq. by eexists.
      * by rewrite lookup_insert_ne.
Qed.

Lemma exec_unfold (r : regex) (s : jsstring) :
  exec r s =
  match match_here r s with
  | Some c => Some c
  | None => match s with
            | [] => None
            | _ :: s' => exec r s'
            end
  end.
Proof. by destruct s. Qed.

(** A match found by [exec] started at some suffix of the input. *)
Lemma exec_Some (r : regex) (s : jsstring) (res : captures) :
  exec r s = Some res → ∃ pre suf, s = pre ++ suf ∧ match_here r suf = Some res.
Proof.
  induction s as [|x s IH]; simpl.
  - destruct (match_here r []) eqn:Hm; [|done]. intros [= ->]. by exists [], [].
  - destruct (match_here r (x :: s)) eqn:Hm.
    + intros [= ->]. by exists [], (x :: s).
    + intros (pre & suf & -> & Hsuf)%IH. by exists (x :: pre), suf.
Qed.

(** A group that takes part in every match is defined in the result of
    [exec]. *)
Lemma exec_sets (n : nat) (r : regex) (s : jsstring) (res : captures) :
  always_sets n r = true → n ≠ 0 → exec r s = Some res → is_Some (res !! n).
Proof.
  intros Hn Hn0 (pre & suf & -> & Hm)%exec_Some. unfold match_here in Hm.
  apply (matcher_sets n) in Hm as (s' & c' & [= <-] & Hc'); [|done].
  by rewrite lookup_insert_ne.
Qed.

(** *** Literal patterns *)

Lemma matcher_Literal (l s : jsstring) (c : captures) (k : Cont) :
  matcher (Literal l) s c k = if startsWith s l then k (drop (length l) s) c else None.
Proof.
  revert s. induction l as [|p l IH]; intros s; simpl.
  - by rewrite startsWith_nil.
  - destruct s as [|x s]; [done|]. simpl. destruct (char_eqb x p); [|done]. apply IH.
Qed.

(** Searching for a literal pattern finds it where [indexOf] does. *)
Lemma exec_Literal_StringIndexOf (l s : jsstring) :
  truthy (exec (Literal l) s) = truthy (StringIndexOf s l).
Proof.
  induction s as [|x s IH]; rewrite StringIndexOf_unfold, exec_unfold;
    unfold match_here; rewrite matcher_Literal.
  - by destruct (startsWith [] l).
  - destruct (startsWith (x :: s) l); [done|]. rewrite IH.
    by destruct (StringIndexOf s l).
Qed.

Lemma exec_Literal (l s : jsstring) :
  truthy (exec (Literal l) s) = true ↔ Occurs l s.
Proof.
  rewrite exec_Literal_StringIndexOf, <- StringIndexOf_Occurs.
  by destruct (StringIndexOf s l); simpl; split; try done; intros [? ?].
Qed.

End RegExpFacts.

(** ** The functions of the module *)

Import JS RegExp Effects JSFacts RegExpFacts.

(** *** [getApiPath] *)

(** C1: [getApiPath(demos, name)] is [null] exactly when [demos] is empty; for
    a list that is not empty it is the first demo's [demoPathname] cut at its
    first [#], then [hooks-api] when [name] starts with [use] and
    [components-api] otherwise, then [/#] and [kebabCase(name)]. So
    [getApiPath([], "useButton")] is [null], and with a [kebabCase] that turns
    [useButton] into [use-button], the list of the one demo
    [/docs/button/#hooks] gives [/docs/button/hooks-api/#use-button]. *)
Theorem getApiPath_spec (kebabCase : jsstring → jsstring) :
  (∀ demos name, getApiPath kebabCase demos name = None ↔ demos = []) ∧
  (∀ demo demos name, ∃ cleaned,
     TruncatedAt (chr "#") (demoPathname demo) cleaned ∧
     getApiPath kebabCase (demo :: demos) name =
       Some (cleaned
             ++ (if startsWith name (lit "use") then lit "hooks-api" else lit "components-api")
             ++ lit "/#" ++ kebabCase name)) ∧
  getApiPath kebabCase [] (lit "useButton") = None ∧
  (kebabCase (lit "useButton") = lit "use-button" →
   getApiPath kebabCase [mkDemo (lit "t") (lit "/docs/button/#hooks")] (lit "useButton")
   = Some (lit "/docs/button/hooks-api/#use-button")).
Proof.
  repeat split.
  - by destruct demos.
  - by intros ->.
  - intros demo demos name.
    destruct (split_head (demoPathname demo) (chr "#")) as (piece & pieces & Hsplit & Hcut).
    exists piece. split; [done|]. unfold getApiPath. by rewrite Hsplit.
  - intros Hkebab. unfold getApiPath. rewrite Hkebab. reflexivity.
Qed.

Lemma getApiPath_useButton :
  getApiPath kebab_camel [mkDemo (lit "t") (lit "/docs/button/#hooks")] (lit "useButton")
  = Some (lit "/docs/button/hooks-api/#use-button").
Proof.
  apply (proj2 (proj2 (proj2 (getApiPath_spec kebab_camel)))). reflexivity.
Defined.

(** *** [getMuiName] *)

(** C3: [getMuiName(name)] is [Mui] followed by [name] without the first
    occurrence of [Styled], wherever in [name] that occurrence is; a [name]
    that holds no [Styled] is kept whole. *)
Theorem getMuiName_spec :
  (∀ name, ∃ stripped,
     ReplacedFirst (lit "Styled") [] name stripped ∧
     getMuiName name = lit "Mui" ++ stripped) ∧
  getMuiName (lit "StyledButton") = lit "MuiButton" ∧
  getMuiName (lit "Button") = lit "MuiButton".
Proof.
  split; [|by split].
  intros name. exists (String_replace name (lit "Styled") []).
  split; [apply String_replace_spec|done].
Qed.

(** Only the first occurrence goes, and it need not be a prefix. *)
Example getMuiName_inner :
  getMuiName (lit "MyStyledStyledBox") = lit "MuiMyStyledBox".
Proof. reflexivity. Qed.

(** *** [fixPathname] *)

(** C5: on a pathname that starts with none of [/material], [/joy] and
    [/base], [fixPathname] returns the pathname with its first [/components/]
    replaced by [/react-], and one [/] after it; nothing else is rewritten. *)
Theorem fixPathname_default (replaceComponentLinks : jsstring → jsstring)
    (pathname : jsstring) :
  startsWith pathname (lit "/material") = false →
  startsWith pathname (lit "/joy") = false →
  startsWith pathname (lit "/base") = false →
  ∃ replaced,
    ReplacedFirst (lit "/components/") (lit "/react-") pathname replaced ∧
    fixPathname replaceComponentLinks pathname = replaced ++ lit "/".
Proof.
  intros Hmaterial Hjoy Hbase. unfold fixPathname. rewrite Hmaterial, Hjoy, Hbase.
  eexists. split; [apply String_replace_spec|done].
Qed.

Lemma fixPathname_default_system :
  ∃ replaced,
    ReplacedFirst (lit "/components/") (lit "/react-") (lit "/system/components/box")
      replaced ∧
    fixPathname (fun url => url) (lit "/system/components/box") = replaced ++ lit "/".
Proof. apply fixPathname_default; reflexivity. Defined.

Example fixPathname_system :
  fixPathname (fun url => url) (lit "/system/components/box") = lit "/system/react-box/".
Proof. reflexivity. Qed.

(** A pathname that starts with [/base] starts with neither [/material] nor
    [/joy]. *)
Lemma startsWith_base (pathname : jsstring) :
  startsWith pathname (lit "/base") = true →
  startsWith pathname (lit "/material") = false ∧
  startsWith pathname (lit "/joy") = false.
Proof. by intros [rest ->]%startsWith_spec. Qed.

(** The claim C10 as it is written fails: the first segment of
    [/basement/base/components/Chip] begins with [base] and is not [base], yet
    the replacement of [/base/] changes the pathname, and the result is not
    the pathname with only [/components/] replaced. *)
Lemma fixPathname_basement_base :
  startsWith (lit "/basement/base/components/Chip") (lit "/base") = true ∧
  first_segment (lit "/basement/base/components/Chip") = lit "basement" ∧
  String_replace (lit "/basement/base/components/Chip") (lit "/base/") (lit "/base-ui/")
    ≠ lit "/basement/base/components/Chip" ∧
  fixPathname (fun url => url) (lit "/basement/base/components/Chip")
    = lit "/basement/base-ui/react-Chip/" ∧
  fixPathname (fun url => url) (lit "/basement/base/components/Chip")
    ≠ String_replace (lit "/basement/base/components/Chip")
        (lit "/components/") (lit "/react-") ++ lit "/".
Proof. by vm_compute. Qed.

(** C10, amended: the branches of [fixPathname] are chosen by prefix tests on
    the raw string. On a pathname that starts with [/base] and in which
    [/base/] occurs nowhere, the replacement of [/base/] changes nothing and
    the result is the pathname with its first [/components/] replaced by
    [/react-], and one [/] after it; so [/basement/components/Chip] gives
    [/basement/react-Chip/]. Whatever follows the prefix [/material] or [/joy]
    is handed to [replaceComponentLinks] with a [/] after it, whether the
    first segment ends with the prefix or not. *)
Theorem fixPathname_prefix_capture (replaceComponentLinks : jsstring → jsstring) :
  (∀ pathname,
     startsWith pathname (lit "/base") = true →
     ¬ Occurs (lit "/base/") pathname →
     ∃ replaced,
       ReplacedFirst (lit "/components/") (lit "/react-") pathname replaced ∧
       fixPathname replaceComponentLinks pathname = replaced ++ lit "/") ∧
  fixPathname replaceComponentLinks (lit "/basement/components/Chip")
    = lit "/basement/react-Chip/" ∧
  (∀ rest, fixPathname replaceComponentLinks (lit "/material" ++ rest)
           = replaceComponentLinks (rest ++ lit "/")) ∧
  (∀ rest, fixPathname replaceComponentLinks (lit "/joy" ++ rest)
           = String_replace (replaceComponentLinks (rest ++ lit "/"))
               (lit "material-ui") (lit "joy-ui")).
Proof.
  split; [|split; [reflexivity|split]].
  - intros pathname Hbase Hnone. destruct (startsWith_base _ Hbase) as [Hmaterial Hjoy].
    unfold fixPathname. rewrite Hmaterial, Hjoy, Hbase.
    rewrite (String_replace_none pathname (lit "/base/")) by done.
    eexists. split; [apply String_replace_spec|done].
  - intros rest. unfold fixPathname.
    rewrite (proj2 (startsWith_spec _ (lit "/material"))) by by exists rest.
    by rewrite remove_prefix_spec.
  - intros rest. unfold fixPathname.
    replace (startsWith (lit "/joy" ++ rest) (lit "/material")) with false by done.
    rewrite (proj2 (startsWith_spec _ (lit "/joy"))) by by exists rest.
    by rewrite remove_prefix_spec.
Qed.

Lemma fixPathname_basement :
  ∃ replaced,
    ReplacedFirst (lit "/components/") (lit "/react-") (lit "/basement/components/Chip")
      replaced ∧
    fixPathname (fun url => url) (lit "/basement/components/Chip") = replaced ++ lit "/".
Proof.
  apply (proj1 (fixPathname_prefix_capture (fun url => url))); [reflexivity|].
  by apply StringIndexOf_None.
Defined.

(** *** [extractPackageFile] *)

(** On POSIX the separator is already [/]: the path is matched as it is. *)
Lemma replaceAll_char_posix (filePath : jsstring) :
  replaceAll_char filePath (path_sep posix) (lit "/") = filePath.
Proof.
  induction filePath as [|x filePath IH]; [done|].
  unfold replaceAll_char in *. rewrite bind_cons, IH.
  destruct (char_eqb x (path_sep posix)) eqn:Hx; [|done].
  by apply char_eqb_eq in Hx as ->.
Qed.

(** On Windows no backslash is left in the path that is matched. *)
Lemma replaceAll_char_win32 (filePath : jsstring) :
  path_sep win32 ∉ replaceAll_char filePath (path_sep win32) (lit "/").
Proof.
  induction filePath as [|x filePath IH]; [apply not_elem_of_nil|].
  unfold replaceAll_char in *. rewrite bind_cons, not_elem_of_app. split; [|done].
  destruct (char_eqb x (path_sep win32)) eqn:Hx.
  - change (lit "/") with [chr "/"]. apply not_elem_of_cons.
    split; [by vm_compute|apply not_elem_of_nil].
  - apply not_elem_of_cons. split; [|apply not_elem_of_nil].
    intros <-. by rewrite (proj2 (char_eqb_eq _ _)) in Hx.
Qed.

(** Groups 1 and 3 of the pattern take part in every match. *)
Lemma packageFile_groups : always_sets 1 packageFile_re = true ∧ always_sets 3 packageFile_re = true.
Proof. by vm_compute. Qed.

(** When the pattern matches, [packagePath] and [name] are strings. *)
Lemma extractPackageFile_match (platform : Platform) (filePath : jsstring) :
  is_Some (exec packageFile_re (replaceAll_char filePath (path_sep platform) (lit "/"))) →
  is_Some (packagePath (extractPackageFile platform filePath)) ∧
  is_Some (name (extractPackageFile platform filePath)).
Proof.
  intros [m Hm]. unfold extractPackageFile. rewrite Hm. simpl.
  destruct packageFile_groups as [H1 H3].
  split; [by apply (exec_sets 1 _ _ _ H1) in Hm|by apply (exec_sets 3 _ _ _ H3) in Hm].
Qed.




Example extractPackageFile_x_data_grid :
  extractPackageFile posix (lit "/repo/packages/x-data-grid/src/DataGrid/DataGrid.tsx")
  = {| packagePath := Some (lit "x-data-grid");
       name := Some (lit "DataGrid");
       muiPackage := Some (lit "mui-data-grid") |}.
Proof. by vm_compute. Qed.

(** C7: on a file path the pattern does not match, [extractPackageFile]
    returns, without throwing, [null] for [packagePath], [null] for [name] and
    [undefined] for [muiPackage]; [/no/match/here.ts] is such a path, on
    either platform. *)
Theorem extractPackageFile_no_match :
  (∀ platform filePath,
     exec packageFile_re (replaceAll_char filePath (path_sep platform) (lit "/")) = None →
     extractPackageFile platform filePath
     = {| packagePath := None; name := None; muiPackage := None |}) ∧
  (∀ platform,
     extractPackageFile platform (lit "/no/match/here.ts")
     = {| packagePath := None; name := None; muiPackage := None |}).
Proof.
  split.
  - intros platform filePath Hm. unfold extractPackageFile. by rewrite Hm.
  - by intros [].
Qed.

Lemma extractPackageFile_no_match_here :
  extractPackageFile posix (lit "/no/match/here.ts")
  = {| packagePath := None; name := None; muiPackage := None |}.
Proof. apply (proj1 extractPackageFile_no_match). by vm_compute. Defined.

(** The platform matters: a path written with backslashes is matched on
    Windows and not on POSIX. *)
Example extractPackageFile_platform :
  packagePath (extractPackageFile win32 (lit "C:\repo\packages\mui-base\src\Button.tsx"))
    = Some (lit "mui-base") ∧
  packagePath (extractPackageFile posix (lit "C:\repo\packages\mui-base\src\Button.tsx"))
    = None.
Proof. by vm_compute. Qed.

(** *** [parseFile] *)

(** C4: when [filename] holds [text], [parseFile(filename)] returns, and its
    [shouldSkip] is [true] exactly when [internal] occurs in [filename] or one
    of the three markers occurs in [text]; so a file that holds
    [// @ignore - internal component.] is skipped. *)
Theorem parseFile_shouldSkip (getLineFeed : jsstring → jsstring)
    (filename text : jsstring) (w : World) :
  files w !! filename = Some text →
  ∃ parsed,
    parseFile getLineFeed filename w = (Return parsed, w) ∧
    src parsed = text ∧
    (shouldSkip parsed = true ↔
       Occurs (lit "internal") filename
       ∨ Occurs (lit "@ignore - internal component.") text
       ∨ Occurs (lit "@ignore - internal hook.") text
       ∨ Occurs (lit "@ignore - do not document.") text) ∧
    (Occurs (lit "// @ignore - internal component.") text → shouldSkip parsed = true).
Proof.
  intros Hfile. unfold parseFile, bind, readFileSync, ret. rewrite Hfile.
  eexists. split; [reflexivity|]. split; [reflexivity|].
  cbn [shouldSkip].
  assert (∀ A B C D : bool, A || B || C || D = true ↔
            A = true ∨ B = true ∨ C = true ∨ D = true) as Hor.
  { intros [] [] [] []; simpl; intuition congruence. }
  rewrite Hor, indexOf_Occurs, !exec_Literal. split; [done|].
  intros (before & after & ->). right. left.
  exists (before ++ lit "// "), after. by rewrite <- !app_assoc.
Qed.

Lemma parseFile_Ripple :
  ∃ parsed,
    parseFile (fun _ => [LF]) (lit "Ripple.js") one_file_world
      = (Return parsed, one_file_world) ∧
    src parsed = lit "// @ignore - internal component." ∧
    (shouldSkip parsed = true ↔
       Occurs (lit "internal") (lit "Ripple.js")
       ∨ Occurs (lit "@ignore - internal component.") (lit "// @ignore - internal component.")
       ∨ Occurs (lit "@ignore - internal hook.") (lit "// @ignore - internal component.")
       ∨ Occurs (lit "@ignore - do not document.") (lit "// @ignore - internal component.")) ∧
    (Occurs (lit "// @ignore - internal component.") (lit "// @ignore - internal component.")
     → shouldSkip parsed = true).
Proof. apply parseFile_shouldSkip. by vm_compute. Defined.

Example parseFile_Ripple_skipped :
  match (parseFile (fun _ => [LF]) (lit "Ripple.js") one_file_world).1 with
  | Return parsed => shouldSkip parsed
  | Throw _ => false
  end = true.
Proof. by vm_compute. Qed.

(** *** [writePrettifiedFile] *)

(** C6: when the formatter finds no configuration for [filename] at the
    configuration path (the one given, or the default one), the call
    [writePrettifiedFile(filename, data, ...)] itself throws an [Error] whose
    message holds [filename] and the configuration path, and the world, so
    every file, is as it was before the call. *)
Theorem writePrettifiedFile_no_config
    (resolveConfig_sync : jsstring → object → World → Outcome (option object))
    (prettier_format : jsstring → object → Outcome jsstring)
    (writeFileSync : jsstring → jsstring → object → M unit)
    (DEFAULT_PRETTIER_CONFIG_PATH filename data : jsstring)
    (prettierConfigPath : option jsstring) (options : option object) (w : World) :
  resolveConfig_sync filename
    {[ "config" := VStr (default DEFAULT_PRETTIER_CONFIG_PATH prettierConfigPath) ]} w
    = Return None →
  ∃ message,
    writePrettifiedFile resolveConfig_sync prettier_format writeFileSync
      DEFAULT_PRETTIER_CONFIG_PATH filename data prettierConfigPath options w
    = (Throw (Error message), w) ∧
    message = lit "Could not resolve config for '" ++ filename
              ++ lit "' using prettier config path '"
              ++ default DEFAULT_PRETTIER_CONFIG_PATH prettierConfigPath ++ lit "'." ∧
    Occurs filename message ∧
    Occurs (default DEFAULT_PRETTIER_CONFIG_PATH prettierConfigPath) message.
Proof.
  intros Hnull. unfold writePrettifiedFile, bind, reading, throw. rewrite Hnull.
  eexists. split; [reflexivity|]. split; [reflexivity|]. split.
  - by eexists _, _.
  - exists (lit "Could not resolve config for '" ++ filename
            ++ lit "' using prettier config path '"), (lit "'.").
    by rewrite <- !app_assoc.
Qed.

Lemma writePrettifiedFile_Ripple :
  ∃ message,
    writePrettifiedFile no_config format_as_is write_text (lit "/repo/prettier.config.js")
      (lit "Ripple.js") (lit "x") None None one_file_world
    = (Throw (Error message), one_file_world) ∧
    message = lit "Could not resolve config for '" ++ lit "Ripple.js"
              ++ lit "' using prettier config path '"
              ++ default (lit "/repo/prettier.config.js") None ++ lit "'." ∧
    Occurs (lit "Ripple.js") message ∧
    Occurs (default (lit "/repo/prettier.config.js") None) message.
Proof. apply writePrettifiedFile_no_config. reflexivity. Defined.

(** *** [getSystemComponents] *)

(** Unlike [extractPackageFile] and [fixPathname], [getSystemComponents]
    depends on the world: once the variable is assigned, the directory is not
    read again. *)
Lemma getSystemComponents_cached (mui_system_src : jsstring) (w : World)
    (components : list jsstring) :
  systemComponents w = Some components →
  getSystemComponents mui_system_src w = (Return components, w).
Proof.
  intros Hcached. unfold getSystemComponents, bind, read_systemComponents, ret.
  by rewrite Hcached.
Qed.

Lemma getSystemComponents_first (mui_system_src : jsstring) (w : World)
    (entries : list jsstring) :
  systemComponents w = None →
  dirs w !! mui_system_src = Some entries →
  ∃ found w',
    getSystemComponents mui_system_src w = (Return found, w') ∧
    systemComponents w' = Some found ∧
    found ⊆ entries.
Proof.
  intros Hnone Hdir.
  unfold getSystemComponents, bind, read_systemComponents, readdirSync,
    assign_systemComponents, ret.
  rewrite Hnone, Hdir. eexists _, _. split; [reflexivity|]. split; [done|].
  intros entry [_ Hin]%list_elem_of_filter. done.
Qed.

Example getSystemComponents_filter :
  (getSystemComponents (lit "/repo/packages/mui-system/src")
     {| files := ∅;
        dirs := {[ lit "/repo/packages/mui-system/src"
                   := [lit "Box"; lit "index.js"; lit "Unstable_Grid"; lit "createBox.js";
                       lit "B"; lit "Stack"] ]};
        systemComponents := None |}).1
  = Return [lit "Box"; lit "Stack"].
Proof. by vm_compute. Qed.

(** *** [formatType] *)

Lemma formatType_empty (prettier_format : jsstring → object → Outcome jsstring) :
  formatType prettier_format [] = Return [].
Proof. done. Qed.

Lemma remove_final_LF_app (formatted : jsstring) :
  remove_final_LF (formatted ++ [LF]) = formatted.
Proof.
  induction formatted as [|x formatted IH]; [done|]. simpl.
  destruct (formatted ++ [LF]) eqn:Happ; [by destruct formatted|]. by rewrite IH.
Qed.

(** The formatter's output loses the prefix of the synthetic declaration and
    one final line feed. *)
Example formatType_union :
  formatType (fun source _ => Return (source ++ [LF])) (lit "string | number")
  = Return (lit "string | number").
Proof. by vm_compute. Qed.

(** What the result of [formatType] is, and whether [formatType] returns its
    own result unchanged, is decided by the formatter. When the formatter
    prints the declaration of [rawType] as the prefix, a text [formatted] and
    a line feed, and prints the declaration of [formatted] the same way, then
    [formatted] is the result on [rawType] and on itself. *)
Lemma formatType_fixed_point (prettier_format : jsstring → object → Outcome jsstring)
    (rawType formatted : jsstring) :
  rawType ≠ [] →
  prettier_format (lit "type FakeType = " ++ rawType) formatType_options
    = Return (lit "type FakeType = " ++ formatted ++ [LF]) →
  prettier_format (lit "type FakeType = " ++ formatted) formatType_options
    = Return (lit "type FakeType = " ++ formatted ++ [LF]) →
  formatType prettier_format rawType = Return formatted ∧
  formatType prettier_format formatted = Return formatted.
Proof.
  intros Hraw Hfirst Hsecond.
  assert (∀ text, text ≠ [] →
            prettier_format (lit "type FakeType = " ++ text) formatType_options
              = Return (lit "type FakeType = " ++ formatted ++ [LF]) →
            formatType prettier_format text = Return formatted) as Hformat.
  { intros [|x text] Htext Hout; [done|]. unfold formatType. rewrite Hout.
    by rewrite drop_app_length, remove_final_LF_app. }
  split; [by apply Hformat|].
  destruct formatted as [|x formatted]; [done|]. by apply Hformat.
Qed.

(** With a formatter that is not stable the second result differs from the
    first: nothing in [formatType] itself repairs that. *)
Example formatType_unstable_formatter :
  formatType (fun source _ => Return (source ++ lit "[]" ++ [LF])) (lit "A")
    = Return (lit "A[]") ∧
  formatType (fun source _ => Return (source ++ lit "[]" ++ [LF])) (lit "A[]")
    = Return (lit "A[][]").
Proof. by vm_compute. Qed.

(** * More properties of the module *)

(** ** What the matcher finds is a match *)

Module RegExpSemFacts.
Import JS RegExp RegExpSem JSFacts RegExpFacts.

Lemma consumed_app (w s' : jsstring) : consumed (w ++ s') s' = w.
Proof.
  unfold consumed. rewrite length_app.
  replace (length w + length s' - length s') with (length w) by lia.
  by rewrite take_app_length.
Qed.

(** The iterations of [RepeatMatcher] make up a match of the star. *)
Lemma RepeatMatcher_sound (r : regex) :
  (∀ s c k res, matcher r s c k = Some res →
     ∃ w s' c', s = w ++ s' ∧ MatchesC r w c c' ∧ k s' c' = Some res) →
  ∀ fuel s c k res, RepeatMatcher fuel (matcher r) (groups r) s c k = Some res →
     ∃ w s' c', s = w ++ s' ∧ MatchesC (Star r) w c c' ∧ k s' c' = Some res.
Proof.
  intros Hr. induction fuel as [|fuel IH]; intros s c k res; simpl.
  - intros Hk. exists [], s, c. split; [done|]. split; [constructor|done].
  - destruct (matcher r s (clear (groups r) c) _) as [res'|] eqn:Hiter.
    + intros [= ->]. apply Hr in Hiter as (w1 & s1 & c1 & -> & Hw1 & Hk1).
      case_decide; [|done]. apply IH in Hk1 as (w2 & s2 & c2 & -> & Hw2 & Hk2).
      exists (w1 ++ w2), s2, c2. split; [by rewrite <- app_assoc|].
      split; [by econstructor|done].
    + intros Hk. exists [], s, c. split; [done|]. split; [constructor|done].
Qed.

(** When the matcher succeeds it has consumed a text the pattern matches, with
    the captures of that match, and the result is what the continuation
    returned on the rest. *)
Lemma matcher_sound (r : regex) (s : jsstring) (c : captures) (k : Cont)
    (res : captures) :
  matcher r s c k = Some res →
  ∃ w s' c', s = w ++ s' ∧ MatchesC r w c c' ∧ k s' c' = Some res.
Proof.
  revert s c k res.
  induction r as [|p|r1 IH1 r2 IH2|r1 IH1 r2 IH2|r1 IH1|r1 IH1|g r1 IH1];
    intros s c k res; simpl.
  - intros Hk. exists [], s, c. split; [done|]. split; [constructor|done].
  - destruct s as [|x s]; [done|]. destruct (p x) eqn:Hp; [|done]. intros Hk.
    exists [x], s, c. split; [done|]. split; [by constructor|done].
  - intros (w1 & s1 & c1 & -> & Hw1 & (w2 & s2 & c2 & -> & Hw2 & Hk)%IH2)%IH1.
    exists (w1 ++ w2), s2, c2. split; [by rewrite <- app_assoc|].
    split; [by econstructor|done].
  - destruct (matcher r1 s c k) as [res'|] eqn:Hleft.
    + intros [= ->]. apply IH1 in Hleft as (w & s' & c' & -> & Hw & Hk).
      exists w, s', c'. split; [done|]. split; [by apply MAltL|done].
    + intros (w & s' & c' & -> & Hw & Hk)%IH2.
      exists w, s', c'. split; [done|]. split; [by apply MAltR|done].
  - exact (RepeatMatcher_sound r1 IH1 (S (length s)) s c k res).
  - destruct (matcher r1 s (clear (groups r1) c) _) as [res'|] eqn:Hiter.
    + intros [= ->]. apply IH1 in Hiter as (w & s' & c' & -> & Hw & Hk).
      case_decide; [|done]. exists w, s', c'. split; [done|].
      split; [by apply MOptSome|done].
    + intros Hk. exists [], s, c. split; [done|]. split; [constructor|done].
  - intros (w & s' & c' & -> & Hw & Hk)%IH1. rewrite consumed_app in Hk.
    exists w, s', (<[g := w]> c'). split; [done|]. split; [by constructor|done].
Qed.

(** The result of [exec] is a match of the pattern somewhere in the input;
    index 0 holds the matched text. *)
Lemma exec_sound (r : regex) (s : jsstring) (res : captures) :
  exec r s = Some res →
  ∃ pre w suf c', s = pre ++ w ++ suf ∧ MatchesC r w ∅ c' ∧ res = <[0 := w]> c'.
Proof.
  intros (pre & suf & -> & Hm)%exec_Some. unfold match_here in Hm.
  apply matcher_sound in Hm as (w & s' & c' & -> & Hw & Hk).
  rewrite consumed_app in Hk. injection Hk as <-. by exists pre, w, s', c'.
Qed.

(** *** Inversions *)

Lemma MatchesC_Seq (r1 r2 : regex) (w : jsstring) (c c2 : captures) :
  MatchesC (Seq r1 r2) w c c2 →
  ∃ w1 w2 c1, w = w1 ++ w2 ∧ MatchesC r1 w1 c c1 ∧ MatchesC r2 w2 c1 c2.
Proof. inversion 1; subst. by eexists _, _, _. Qed.

Lemma MatchesC_Class (p : char → bool) (w : jsstring) (c c' : captures) :
  MatchesC (Class p) w c c' → ∃ x, w = [x] ∧ p x = true ∧ c' = c.
Proof. inversion 1; subst. by eexists. Qed.

Lemma MatchesC_Chr (x : char) (w : jsstring) (c c' : captures) :
  MatchesC (Chr x) w c c' → w = [x] ∧ c' = c.
Proof. intros (y & -> & ->%char_eqb_eq & ->)%MatchesC_Class. done. Qed.

Lemma MatchesC_Empty (w : jsstring) (c c' : captures) :
  MatchesC Empty w c c' → w = [] ∧ c' = c.
Proof. by inversion 1. Qed.

Lemma MatchesC_Literal (l w : jsstring) (c c' : captures) :
  MatchesC (Literal l) w c c' → w = l ∧ c' = c.
Proof.
  revert w c. induction l as [|x l IH]; intros w c; simpl.
  - apply MatchesC_Empty.
  - intros (w1 & w2 & c1 & -> & [-> ->]%MatchesC_Chr & [-> ->]%IH)%MatchesC_Seq. done.
Qed.

Lemma MatchesC_Group (n : nat) (r : regex) (w : jsstring) (c c' : captures) :
  MatchesC (Group n r) w c c' → ∃ c1, MatchesC r w c c1 ∧ c' = <[n := w]> c1.
Proof. inversion 1; subst. by eexists. Qed.

Lemma MatchesC_Alt (r1 r2 : regex) (w : jsstring) (c c' : captures) :
  MatchesC (Alt r1 r2) w c c' → MatchesC r1 w c c' ∨ MatchesC r2 w c c'.
Proof. inversion 1; subst; auto. Qed.

Lemma MatchesC_Opt (r : regex) (w : jsstring) (c c' : captures) :
  MatchesC (Opt r) w c c' →
  (w = [] ∧ c' = c) ∨ MatchesC r w (clear (groups r) c) c'.
Proof. inversion 1; subst; auto. Qed.

(** A run of a class is a text of that class, and captures nothing. *)
Lemma MatchesC_Star_Class (p : char → bool) (w : jsstring) (c c' : captures) :
  MatchesC (Star (Class p)) w c c' → Forall (fun x => p x = true) w ∧ c' = c.
Proof.
  intros Hm. remember (Star (Class p)) as r eqn:Hr.
  induction Hm as [| | | | | |r0 w1 w2 c c1 c2 H1 _ H2 IH2| | |]; try done.
  injection Hr as ->.
  apply MatchesC_Class in H1 as (x & -> & Hx & ->). destruct (IH2 eq_refl) as [Hw2 ->].
  split; [by constructor|done].
Qed.

Lemma MatchesC_Plus_Class (p : char → bool) (w : jsstring) (c c' : captures) :
  MatchesC (Plus (Class p)) w c c' →
  w ≠ [] ∧ Forall (fun x => p x = true) w ∧ c' = c.
Proof.
  intros (w1 & w2 & c1 & -> & (x & -> & Hx & ->)%MatchesC_Class
          & [Hw2 ->]%MatchesC_Star_Class)%MatchesC_Seq.
  split; [done|]. split; [by constructor|done].
Qed.

(** A text without [c], as the class [[^c]] sees it. *)
Lemma Forall_NotChr (c : char) (w : jsstring) :
  Forall (fun x => negb (char_eqb x c) = true) w → c ∉ w.
Proof.
  intros Hw Hin. rewrite Forall_forall in Hw. specialize (Hw c Hin).
  by rewrite (proj2 (char_eqb_eq c c)) in Hw.
Qed.

End RegExpSemFacts.

(** ** [extractPackageFile]: what the fields of a match are *)

Import RegExpSem RegExpSemFacts.

(** The shape of a text the pattern matches, and where groups 1 and 3 are. *)
Lemma packageFile_re_shape (w : jsstring) (c' : captures) :
  MatchesC packageFile_re w ∅ c' →
  ∃ a b directory sub base ext,
    w = a ++ lit "/packages" ++ b ++ lit "/" ++ directory ++ lit "/src/"
          ++ sub ++ base ++ lit "." ++ ext ∧
    directory ≠ [] ∧ (chr "/" ∉ directory) ∧
    base ≠ [] ∧ (chr "/" ∉ base) ∧
    (sub = [] ∨ ∃ sub', sub = sub' ++ lit "/") ∧
    (ext = lit "js" ∨ ext = lit "tsx" ∨ ext = lit "ts" ∨ ext = lit "d.ts") ∧
    c' !! 1 = Some directory ∧ c' !! 3 = Some base.
Proof.
  unfold packageFile_re, Seqs. cbn [foldr].
  intros (a & ? & c1 & -> & [_ ->]%MatchesC_Star_Class & H)%MatchesC_Seq.
  apply MatchesC_Seq in H as (? & ? & c2 & -> & [-> ->]%MatchesC_Literal & H).
  apply MatchesC_Seq in H as (b & ? & c3 & -> & [_ ->]%MatchesC_Star_Class & H).
  apply MatchesC_Seq in H as (? & ? & c4 & -> & [-> ->]%MatchesC_Chr & H).
  apply MatchesC_Seq in H as (directory & ? & c5 & -> & (c5' & Hdir & ->)%MatchesC_Group & H).
  apply MatchesC_Plus_Class in Hdir as (Hdir & Hdir'%Forall_NotChr & ->).
  apply MatchesC_Seq in H as (? & ? & c6 & -> & [-> ->]%MatchesC_Literal & H).
  apply MatchesC_Seq in H as (sub & ? & c7 & -> & Hsub & H).
  apply MatchesC_Seq in H as (base & ? & c8 & -> & (c8' & Hbase & ->)%MatchesC_Group & H).
  apply MatchesC_Plus_Class in Hbase as (Hbase & Hbase'%Forall_NotChr & ->).
  apply MatchesC_Seq in H as (? & ? & c9 & -> & [-> ->]%MatchesC_Chr & H).
  apply MatchesC_Seq in H as (ext & ? & c10 & -> & (c10' & Hext & ->)%MatchesC_Group
                              & [-> ->]%MatchesC_Empty).
  exists a, b, directory, sub, base, ext. rewrite app_nil_r.
  split; [done|]. do 4 (split; [done|]). split; [|split].
  - apply MatchesC_Opt in Hsub as [[-> _]|(c0 & Hsub & _)%MatchesC_Group]; [by left|].
    apply MatchesC_Seq in Hsub as (sub' & ? & ? & -> & _ & [-> _]%MatchesC_Chr).
    right. by exists sub'.
  - apply MatchesC_Alt in Hext as [Hext|Hext]; [apply MatchesC_Literal in Hext as [-> _]; auto|].
    apply MatchesC_Alt in Hext as [Hext|Hext]; [apply MatchesC_Literal in Hext as [-> _]; auto|].
    apply MatchesC_Alt in Hext as [Hext|Hext]; apply MatchesC_Literal in Hext as [-> _]; auto.
  - assert (c7 !! 1 = Some directory ∧ c7 !! 3 = None) as [H1 H3].
    { apply MatchesC_Opt in Hsub as [[_ ->]|(c0 & Hsub & ->)%MatchesC_Group].
      - by rewrite lookup_insert_eq, lookup_insert_ne, lookup_empty.
      - apply MatchesC_Seq in Hsub as (? & ? & ? & _ & [_ ->]%MatchesC_Star_Class
                                       & [_ ->]%MatchesC_Chr).
        rewrite !lookup_insert_ne by done.
        rewrite !clear_lookup by (by cbn; intros ?%list_elem_of_singleton).
        by rewrite lookup_insert_eq, lookup_insert_ne, lookup_empty. }
    assert (c10' = <[3 := base]> c7) as ->.
    { clear -Hext.
      apply MatchesC_Alt in Hext as [Hext|Hext]; [by apply MatchesC_Literal in Hext as [_ ->]|].
      apply MatchesC_Alt in Hext as [Hext|Hext]; [by apply MatchesC_Literal in Hext as [_ ->]|].
      by apply MatchesC_Alt in Hext as [Hext|Hext]; apply MatchesC_Literal in Hext as [_ ->]. }
    split.
    + by rewrite !lookup_insert_ne by done.
    + rewrite lookup_insert_ne by done. by rewrite lookup_insert_eq.
Qed.

(** Every result of [exec] on the pattern has the shape above, somewhere in
    the path. *)
Lemma packageFile_exec (path : jsstring) (res : captures) :
  exec packageFile_re path = Some res →
  ∃ a b directory sub base ext d,
    path = a ++ lit "/packages" ++ b ++ lit "/" ++ directory ++ lit "/src/"
             ++ sub ++ base ++ lit "." ++ ext ++ d ∧
    directory ≠ [] ∧ (chr "/" ∉ directory) ∧
    base ≠ [] ∧ (chr "/" ∉ base) ∧
    (sub = [] ∨ ∃ sub', sub = sub' ++ lit "/") ∧
    (ext = lit "js" ∨ ext = lit "tsx" ∨ ext = lit "ts" ∨ ext = lit "d.ts") ∧
    res !! 1 = Some directory ∧ res !! 3 = Some base.
Proof.
  intros (pre & w & suf & c' & -> & Hw & ->)%exec_sound.
  apply packageFile_re_shape in Hw
    as (a & b & directory & sub & base & ext & -> & ? & ? & ? & ? & ? & ? & H1 & H3).
  exists (pre ++ a), b, directory, sub, base, ext, suf.
  split; [by rewrite <- !app_assoc|]. do 6 (split; [done|]).
  by rewrite !lookup_insert_ne by done.
Qed.

Lemma extractPackageFile_exec (platform : Platform) (filePath : jsstring) :
  (∀ directory, packagePath (extractPackageFile platform filePath) = Some directory →
     ∃ res, exec packageFile_re (normalized platform filePath) = Some res ∧
            res !! 1 = Some directory) ∧
  (∀ base, name (extractPackageFile platform filePath) = Some base →
     ∃ res, exec packageFile_re (normalized platform filePath) = Some res ∧
            res !! 3 = Some base).
Proof.
  unfold extractPackageFile, normalized. simpl.
  destruct (exec packageFile_re _) as [res|]; [|done]. split; intros ? ?; by exists res.
Qed.

(** [packagePath] and [name], when they are strings, are not empty and hold
    no [/]: each is a whole segment, or a piece of one, of the path. *)
Theorem extractPackageFile_segments (platform : Platform) (filePath : jsstring) :
  (∀ directory, packagePath (extractPackageFile platform filePath) = Some directory →
     directory ≠ [] ∧ chr "/" ∉ directory) ∧
  (∀ base, name (extractPackageFile platform filePath) = Some base →
     base ≠ [] ∧ chr "/" ∉ base).
Proof.
  destruct (extractPackageFile_exec platform filePath) as [Hdir Hbase]. split.
  - intros directory (res & Hres & H1)%Hdir.
    apply packageFile_exec in Hres as (? & ? & ? & ? & ? & ? & ? & _ & ? & ? & _ & _ & _ & _ & H1' & _).
    by pose proof (eq_trans (eq_sym H1') H1) as [= <-].
  - intros base (res & Hres & H3)%Hbase.
    apply packageFile_exec in Hres as (? & ? & ? & ? & ? & ? & ? & _ & _ & _ & ? & ? & _ & _ & _ & H3').
    by pose proof (eq_trans (eq_sym H3') H3) as [= <-].
Qed.

Lemma extractPackageFile_segments_DataGrid :
  lit "x-data-grid" ≠ [] ∧ chr "/" ∉ lit "x-data-grid".
Proof.
  apply (proj1 (extractPackageFile_segments posix
                  (lit "/repo/packages/x-data-grid/src/DataGrid/DataGrid.tsx"))).
  by vm_compute.
Defined.

(** When [packagePath] and [name] are strings, the path (with [/] as its
    separator) holds [/packages], later [/], [packagePath] and [/src/], then
    nothing or directories that end with [/], then [name], a dot and one of
    the extensions [js], [tsx], [ts], [d.ts]. *)
Theorem extractPackageFile_path_shape (platform : Platform)
    (filePath directory base : jsstring) :
  packagePath (extractPackageFile platform filePath) = Some directory →
  name (extractPackageFile platform filePath) = Some base →
  ∃ a b sub ext d,
    normalized platform filePath
      = a ++ lit "/packages" ++ b ++ lit "/" ++ directory ++ lit "/src/"
          ++ sub ++ base ++ lit "." ++ ext ++ d ∧
    (sub = [] ∨ ∃ sub', sub = sub' ++ lit "/") ∧
    (ext = lit "js" ∨ ext = lit "tsx" ∨ ext = lit "ts" ∨ ext = lit "d.ts").
Proof.
  destruct (extractPackageFile_exec platform filePath) as [Hdir Hbase].
  intros (res & Hres & H1)%Hdir (res' & Hres' & H3)%Hbase.
  pose proof (eq_trans (eq_sym Hres') Hres) as [= ->].
  apply packageFile_exec in Hres
    as (a & b & ? & sub & ? & ext & d & Hpath & _ & _ & _ & _ & ? & ? & H1' & H3').
  pose proof (eq_trans (eq_sym H1') H1) as [= ->].
  pose proof (eq_trans (eq_sym H3') H3) as [= ->].
  by exists a, b, sub, ext, d.
Qed.

Lemma extractPackageFile_path_shape_DataGrid :
  ∃ a b sub ext d,
    normalized posix (lit "/repo/packages/x-data-grid/src/DataGrid/DataGrid.tsx")
      = a ++ lit "/packages" ++ b ++ lit "/" ++ lit "x-data-grid" ++ lit "/src/"
          ++ sub ++ lit "DataGrid" ++ lit "." ++ ext ++ d ∧
    (sub = [] ∨ ∃ sub', sub = sub' ++ lit "/") ∧
    (ext = lit "js" ∨ ext = lit "tsx" ∨ ext = lit "ts" ∨ ext = lit "d.ts").
Proof. apply extractPackageFile_path_shape; by vm_compute. Defined.

(** The three fields come together: all of them are there, or none is. *)
Theorem extractPackageFile_all_or_nothing (platform : Platform) (filePath : jsstring) :
  (is_Some (packagePath (extractPackageFile platform filePath)) ∧
   is_Some (name (extractPackageFile platform filePath)) ∧
   is_Some (muiPackage (extractPackageFile platform filePath)))
  ∨ extractPackageFile platform filePath
    = {| packagePath := None; name := None; muiPackage := None |}.
Proof.
  destruct (exec packageFile_re (replaceAll_char filePath (path_sep platform) (lit "/")))
    as [res|] eqn:Hres.
  - left. destruct (extractPackageFile_match platform filePath) as [Hdir Hbase];
      [by rewrite Hres|].
    split; [done|]. split; [done|].
    destruct Hdir as [directory Hdir]. unfold extractPackageFile in *. simpl in *.
    rewrite Hdir. by eexists.
  - right. unfold extractPackageFile. by rewrite Hres.
Qed.

Lemma Occurs_middle (pat a b : jsstring) : Occurs pat (a ++ pat ++ b).
Proof. by exists a, b. Qed.

(** A path that holds no [/packages], or no [/src/], gives no fields. *)
Theorem extractPackageFile_needs_segments (platform : Platform) (filePath : jsstring) :
  ¬ Occurs (lit "/packages") (normalized platform filePath)
  ∨ ¬ Occurs (lit "/src/") (normalized platform filePath) →
  extractPackageFile platform filePath
  = {| packagePath := None; name := None; muiPackage := None |}.
Proof.
  intros Hnone.
  destruct (exec packageFile_re (normalized platform filePath)) as [res|] eqn:Hres.
  - exfalso.
    apply packageFile_exec in Hres as (a & b & dir & sub & base & ext & d & Hpath & _).
    destruct Hnone as [Hnone|Hnone]; apply Hnone; rewrite Hpath.
    + apply Occurs_middle.
    + exists (a ++ lit "/packages" ++ b ++ lit "/" ++ dir), (sub ++ base ++ lit "." ++ ext ++ d).
      by rewrite <- !app_assoc.
  - unfold extractPackageFile. unfold normalized in Hres. by rewrite Hres.
Qed.

Lemma extractPackageFile_needs_segments_docs :
  extractPackageFile posix (lit "/repo/docs/src/pages/index.tsx")
  = {| packagePath := None; name := None; muiPackage := None |}.
Proof.
  apply extractPackageFile_needs_segments. left. by apply StringIndexOf_None.
Defined.

(** On Windows the result is that of POSIX on the path with every backslash
    turned into [/]. *)
Theorem extractPackageFile_win32 (filePath : jsstring) :
  extractPackageFile win32 filePath
  = extractPackageFile posix (replaceAll_char filePath (chr "\") (lit "/")).
Proof.
  unfold extractPackageFile. by rewrite replaceAll_char_posix.
Qed.

(** ** Greedy runs *)

Module RunFacts.
Import JS RegExp RegExpSem JSFacts RegExpFacts RegExpSemFacts.

Lemma take_drop_run (p : char → bool) (s : jsstring) :
  take_run p s ++ drop_run p s = s.
Proof.
  induction s as [|x s IH]; [done|]. simpl. destruct (p x); [|done]. simpl. by rewrite IH.
Qed.

Lemma take_run_Forall (p : char → bool) (s : jsstring) :
  Forall (fun x => p x = true) (take_run p s).
Proof.
  induction s as [|x s IH]; [constructor|]. simpl.
  destruct (p x) eqn:Hx; [by constructor|constructor].
Qed.

Lemma drop_run_head (p : char → bool) (s : jsstring) :
  drop_run p s = [] ∨ ∃ x rest, drop_run p s = x :: rest ∧ p x = false.
Proof.
  induction s as [|x s IH]; [by left|]. simpl.
  destruct (p x) eqn:Hx; [done|]. right. by exists x, s.
Qed.

Lemma drop_run_length (p : char → bool) (s : jsstring) :
  length (drop_run p s) ≤ length s.
Proof.
  induction s as [|x s IH]; [done|]. simpl. destruct (p x); simpl; lia.
Qed.

Lemma matcher_Class (p : char → bool) (s : jsstring) (c : captures) (k : Cont) :
  matcher (Class p) s c k =
  match s with
  | x :: s' => if p x then k s' c else None
  | [] => None
  end.
Proof. done. Qed.

Lemma matcher_Seq (r1 r2 : regex) (s : jsstring) (c : captures) (k : Cont) :
  matcher (Seq r1 r2) s c k = matcher r1 s c (fun s' c' => matcher r2 s' c' k).
Proof. done. Qed.

Lemma matcher_Group (n : nat) (r : regex) (s : jsstring) (c : captures) (k : Cont) :
  matcher (Group n r) s c k
  = matcher r s c (fun s' c' => k s' (<[n := consumed s s']> c')).
Proof. done. Qed.

(** Before a continuation that accepts whatever is left, a greedy run of a
    class takes all it can. *)
Lemma matcher_Star_Class_greedy (p : char → bool) (s : jsstring) (c : captures)
    (k : Cont) :
  (∀ s' c', is_Some (k s' c')) →
  matcher (Star (Class p)) s c k = k (drop_run p s) c.
Proof.
  intros Hk. revert c.
  induction s as [|x s IH]; intros c; rewrite matcher_Star, matcher_Class; [done|].
  cbn [drop_run]. destruct (p x) eqn:Hx; [|done].
  rewrite decide_True by (simpl; lia). rewrite IH.
  change (clear (groups (Class p)) c) with c.
  by destruct (Hk (drop_run p s) c) as [res ->].
Qed.

(** Before the end of the input, a run of a class succeeds exactly when all
    that is left is in the class. *)
Lemma matcher_Star_Class_end (p : char → bool) (s : jsstring) (c : captures)
    (k : Cont) :
  (∀ x s' c', k (x :: s') c' = None) →
  matcher (Star (Class p)) s c k = if forallb p s then k [] c else None.
Proof.
  intros Hk. revert c.
  induction s as [|x s IH]; intros c; rewrite matcher_Star, matcher_Class; [done|].
  cbn [forallb]. destruct (p x) eqn:Hx; cbn [andb]; [|apply Hk].
  rewrite decide_True by (simpl; lia). rewrite IH.
  change (clear (groups (Class p)) c) with c.
  destruct (forallb p s); [|apply Hk]. destruct (k [] c) eqn:Hend; [done|apply Hk].
Qed.

End RunFacts.

(** ** [parseFile]: the other fields, and a file that is not there *)

Import RunFacts.

(** [parseFile] never changes the world, and it throws when the file cannot
    be read. *)
Theorem parseFile_reads_only (getLineFeed : jsstring → jsstring) (filename : jsstring)
    (w : World) :
  (parseFile getLineFeed filename w).2 = w ∧
  (files w !! filename = None →
   (parseFile getLineFeed filename w).1 = Throw (ENOENT filename)).
Proof.
  unfold parseFile, bind, readFileSync, ret. by destruct (files w !! filename).
Qed.

Lemma parseFile_missing_Button :
  (parseFile (fun _ => [LF]) (lit "Button.js") one_file_world).1
  = Throw (ENOENT (lit "Button.js")).
Proof. apply parseFile_reads_only. by vm_compute. Defined.

(** [spread] is [false] exactly when the text holds [ = exactProp(]. *)
Theorem parseFile_spread (getLineFeed : jsstring → jsstring) (filename text : jsstring)
    (w : World) :
  files w !! filename = Some text →
  ∃ parsed,
    parseFile getLineFeed filename w = (Return parsed, w) ∧
    (spread parsed = false ↔ Occurs (lit " = exactProp(") text).
Proof.
  intros Hfile. unfold parseFile, bind, readFileSync, ret. rewrite Hfile.
  eexists. split; [reflexivity|]. cbn [spread].
  rewrite negb_false_iff. apply exec_Literal.
Qed.

Lemma parseFile_spread_Ripple :
  ∃ parsed,
    parseFile (fun _ => [LF]) (lit "Ripple.js") one_file_world
      = (Return parsed, one_file_world) ∧
    (spread parsed = false
     ↔ Occurs (lit " = exactProp(") (lit "// @ignore - internal component.")).
Proof. apply parseFile_spread. by vm_compute. Defined.

(** The first match of the pattern of [inheritedComponent] starts at the
    first marker, and group 1 is the rest of that line. *)
Lemma inheritedComponent_exec (s : jsstring) :
  match exec inheritedComponent_re s with
  | Some m => m !! 1
  | None => None
  end
  = (fun i => rest_of_line (drop (i + length (lit "// @inheritedComponent ")) s))
      <$> StringIndexOf s (lit "// @inheritedComponent ").
Proof.
  induction s as [|x s IH]; rewrite exec_unfold, StringIndexOf_unfold;
    unfold match_here; unfold inheritedComponent_re at 1; unfold Lit, Dot;
    rewrite matcher_Seq, matcher_Literal; cbv beta.
  - done.
  - destruct (startsWith (x :: s) (lit "// @inheritedComponent ")) eqn:Hstart.
    + rewrite matcher_Group, matcher_Star_Class_greedy by (intros; by eexists).
      cbn [fmap option_fmap option_map]. rewrite lookup_insert_ne by done.
      rewrite lookup_insert_eq. f_equal. unfold rest_of_line.
      set (b := drop _ (x :: s)).
      rewrite <- (take_drop_run (fun x => negb (is_LineTerminator x)) b) at 1.
      apply consumed_app.
    + rewrite IH. by destruct (StringIndexOf s _).
Qed.

(** [inheritedComponent] is [undefined] when the text holds no
    [// @inheritedComponent ]; else it is what follows the first one, up to
    the end of its line. *)
Theorem parseFile_inheritedComponent (getLineFeed : jsstring → jsstring)
    (filename text : jsstring) (w : World) :
  files w !! filename = Some text →
  ∃ parsed,
    parseFile getLineFeed filename w = (Return parsed, w) ∧
    (¬ Occurs (lit "// @inheritedComponent ") text → inheritedComponent parsed = None) ∧
    (∀ before after,
       FirstOcc (lit "// @inheritedComponent ") text before after →
       ∃ value rest,
         after = value ++ rest ∧
         inheritedComponent parsed = Some value ∧
         Forall (fun x => is_LineTerminator x = false) value ∧
         (rest = [] ∨ ∃ x rest', rest = x :: rest' ∧ is_LineTerminator x = true)).
Proof.
  intros Hfile. unfold parseFile, bind, readFileSync, ret. rewrite Hfile.
  eexists. split; [reflexivity|]. cbn [inheritedComponent].
  rewrite inheritedComponent_exec. split.
  - intros Hnone. destruct (StringIndexOf text _) as [i|] eqn:Hi; [|done].
    destruct Hnone. apply StringIndexOf_Occurs. by eexists.
  - intros before after Hfirst.
    destruct (StringIndexOf text (lit "// @inheritedComponent ")) as [i|] eqn:Hi.
    + apply StringIndexOf_Some in Hi.
      destruct (FirstOcc_unique _ _ _ _ _ _ Hfirst Hi) as [_ ->].
      set (p := fun x => negb (is_LineTerminator x)).
      set (after := drop _ text).
      exists (take_run p after), (drop_run p after).
      split; [by rewrite take_drop_run|]. split; [done|]. split.
      * eapply Forall_impl; [apply take_run_Forall|]. intros x. apply negb_true_iff.
      * destruct (drop_run_head p after) as [->|(x & rest & -> & Hx)]; [by left|].
        right. exists x, rest. split; [done|]. by apply negb_false_iff.
    + apply StringIndexOf_None in Hi. destruct Hi. destruct Hfirst as [-> _].
      by eexists _, _.
Qed.

Lemma parseFile_inheritedComponent_Button :
  ∃ parsed,
    parseFile (fun _ => [LF]) (lit "/repo/Button.js") repo_world
      = (Return parsed, repo_world) ∧
    (¬ Occurs (lit "// @inheritedComponent ") Button_text
     → inheritedComponent parsed = None) ∧
    (∀ before after,
       FirstOcc (lit "// @inheritedComponent ") Button_text before after →
       ∃ value rest,
         after = value ++ rest ∧
         inheritedComponent parsed = Some value ∧
         Forall (fun x => is_LineTerminator x = false) value ∧
         (rest = [] ∨ ∃ x rest', rest = x :: rest' ∧ is_LineTerminator x = true)).
Proof. apply parseFile_inheritedComponent. by vm_compute. Defined.

Example parseFile_Button :
  match (parseFile (fun _ => [LF]) (lit "/repo/Button.js") repo_world).1 with
  | Return parsed =>
      inheritedComponent parsed = Some (lit "ButtonBase") ∧ spread parsed = false
      ∧ shouldSkip parsed = false
  | Throw _ => False
  end.
Proof. by vm_compute. Qed.

(** ** [writePrettifiedFile]: what is written, and when *)

(** With a configuration and a formatter that returns, the call is the one
    call [fs.writeFileSync(filename, formatted, passed)]: it returns or throws
    as that call does, and leaves the world that call leaves. The options
    passed are the caller's, and [encoding: 'utf8'] when the caller gave no
    encoding. *)
Theorem writePrettifiedFile_success
    (resolveConfig_sync : jsstring → object → World → Outcome (option object))
    (prettier_format : jsstring → object → Outcome jsstring)
    (writeFileSync : jsstring → jsstring → object → M unit)
    (DEFAULT_PRETTIER_CONFIG_PATH filename data formatted : jsstring)
    (prettierConfigPath : option jsstring) (options : option object)
    (config : object) (w : World) :
  resolveConfig_sync filename
    {[ "config" := VStr (default DEFAULT_PRETTIER_CONFIG_PATH prettierConfigPath) ]} w
    = Return (Some config) →
  prettier_format data (<["filepath" := VStr filename]> config) = Return formatted →
  ∃ passed,
    writePrettifiedFile resolveConfig_sync prettier_format writeFileSync
      DEFAULT_PRETTIER_CONFIG_PATH filename data prettierConfigPath options w
    = writeFileSync filename formatted passed w ∧
    (∀ key value, default ∅ options !! key = Some value → passed !! key = Some value) ∧
    (default ∅ options !! "encoding" = None →
     passed !! "encoding" = Some (VStr (lit "utf8"))) ∧
    (∀ key, key ≠ "encoding" → default ∅ options !! key = None → passed !! key = None).
Proof.
  intros Hconfig Hformat. unfold writePrettifiedFile, bind, reading, lift.
  rewrite Hconfig, Hformat. eexists. split; [reflexivity|]. split; [|split].
  - intros key value Hkey. by apply lookup_union_Some_l.
  - intros Hnone. rewrite lookup_union_r by done. apply lookup_singleton_eq.
  - intros key Hkey Hnone. rewrite lookup_union_r by done. by apply lookup_singleton_ne.
Qed.

Lemma writePrettifiedFile_success_Button :
  ∃ passed,
    writePrettifiedFile some_config format_with_LF write_text (lit "/repo/prettier.config.js")
      (lit "/repo/Button.js") (lit "x") None (Some mode_options) repo_world
    = write_text (lit "/repo/Button.js") (lit "x" ++ [LF]) passed repo_world ∧
    (∀ key value,
       default ∅ (Some mode_options) !! key = Some value →
       passed !! key = Some value) ∧
    (default ∅ (Some mode_options) !! "encoding" = None →
     passed !! "encoding" = Some (VStr (lit "utf8"))) ∧
    (∀ key, key ≠ "encoding" →
            default ∅ (Some mode_options) !! key = None →
            passed !! key = None).
Proof.
  apply (writePrettifiedFile_success some_config format_with_LF write_text
           (lit "/repo/prettier.config.js") (lit "/repo/Button.js") (lit "x")
           (lit "x" ++ [LF]) None (Some mode_options) ∅ repo_world);
    reflexivity.
Defined.

(** A call that throws either has not called [fs.writeFileSync], and then the
    world is as it was and the error is that of the resolution of the
    configuration, the [Error] for no configuration, or that of the formatter;
    or the configuration was resolved, the formatter returned, and the error
    and the world are those of [fs.writeFileSync]. *)
Theorem writePrettifiedFile_throws
    (resolveConfig_sync : jsstring → object → World → Outcome (option object))
    (prettier_format : jsstring → object → Outcome jsstring)
    (writeFileSync : jsstring → jsstring → object → M unit)
    (DEFAULT_PRETTIER_CONFIG_PATH filename data : jsstring)
    (prettierConfigPath : option jsstring) (options : option object)
    (w w' : World) (e : exn) :
  writePrettifiedFile resolveConfig_sync prettier_format writeFileSync
    DEFAULT_PRETTIER_CONFIG_PATH filename data prettierConfigPath options w
  = (Throw e, w') →
  (w' = w ∧
   (resolveConfig_sync filename
      {[ "config" := VStr (default DEFAULT_PRETTIER_CONFIG_PATH prettierConfigPath) ]} w
    = Throw e
    ∨ (resolveConfig_sync filename
         {[ "config" := VStr (default DEFAULT_PRETTIER_CONFIG_PATH prettierConfigPath) ]} w
       = Return None ∧ ∃ message, e = Error message)
    ∨ ∃ config,
        resolveConfig_sync filename
          {[ "config" := VStr (default DEFAULT_PRETTIER_CONFIG_PATH prettierConfigPath) ]} w
        = Return (Some config) ∧
        prettier_format data (<["filepath" := VStr filename]> config) = Throw e))
  ∨ (∃ config formatted,
       resolveConfig_sync filename
         {[ "config" := VStr (default DEFAULT_PRETTIER_CONFIG_PATH prettierConfigPath) ]} w
       = Return (Some config) ∧
       prettier_format data (<["filepath" := VStr filename]> config) = Return formatted ∧
       writeFileSync filename formatted
         (default ∅ options ∪ {[ "encoding" := VStr (lit "utf8") ]}) w
       = (Throw e, w')).
Proof.
  unfold writePrettifiedFile, bind, reading, lift, throw.
  destruct (resolveConfig_sync _ _ w) as [[config|]|e0] eqn:Hconfig.
  - destruct (prettier_format data _) as [formatted|e1] eqn:Hformat.
    + intros Hwrite. right. by exists config, formatted.
    + intros [= -> ->]. left. split; [done|]. right. right. by exists config.
  - intros [= <- ->]. left. split; [done|]. right. left. split; [done|]. by eexists.
  - intros [= -> ->]. left. split; [done|]. by left.
Qed.

Lemma writePrettifiedFile_throws_no_directory :
  (repo_world = repo_world ∧
   (some_config (lit "/nodir/out.js")
      {[ "config" := VStr (default (lit "/repo/prettier.config.js") None) ]} repo_world
    = Throw (ENOENT (lit "/nodir/out.js"))
    ∨ (some_config (lit "/nodir/out.js")
         {[ "config" := VStr (default (lit "/repo/prettier.config.js") None) ]} repo_world
       = Return None ∧ ∃ message, ENOENT (lit "/nodir/out.js") = Error message)
    ∨ ∃ config,
        some_config (lit "/nodir/out.js")
          {[ "config" := VStr (default (lit "/repo/prettier.config.js") None) ]} repo_world
        = Return (Some config) ∧
        format_with_LF (lit "x") (<["filepath" := VStr (lit "/nodir/out.js")]> config)
        = Throw (ENOENT (lit "/nodir/out.js"))))
  ∨ (∃ config formatted,
       some_config (lit "/nodir/out.js")
         {[ "config" := VStr (default (lit "/repo/prettier.config.js") None) ]} repo_world
       = Return (Some config) ∧
       format_with_LF (lit "x") (<["filepath" := VStr (lit "/nodir/out.js")]> config)
       = Return formatted ∧
       write_fails (lit "/nodir/out.js") formatted
         (default (∅ : object) None ∪ {[ "encoding" := VStr (lit "utf8") ]}) repo_world
       = (Throw (ENOENT (lit "/nodir/out.js")), repo_world)).
Proof.
  apply (writePrettifiedFile_throws some_config format_with_LF write_fails
           (lit "/repo/prettier.config.js") (lit "/nodir/out.js") (lit "x") None None).
  reflexivity.
Defined.

(** ** [getSystemComponents]: the names it keeps, and its cache *)

(** The pattern of [getSystemComponents] matches the whole of an entry
    exactly when the entry is an upper-case letter followed by one or more
    letters. *)
Lemma systemComponent_re_spec (entry : jsstring) :
  truthy (exec_anchored systemComponent_re entry) = true ↔ component_name entry.
Proof.
  unfold exec_anchored, systemComponent_re, Range, Plus, component_name.
  rewrite matcher_Seq, matcher_Class.
  destruct entry as [|x [|y rest]].
  - split; [done|]. by intros (? & ? & ? & ? & _).
  - rewrite matcher_Seq, matcher_Class.
    split; [by destruct (in_range _ _ x)|]. by intros (? & ? & ? & ? & _).
  - rewrite matcher_Seq, matcher_Class. fold (is_letter y).
    rewrite matcher_Star_Class_end by done. fold is_letter.
    split.
    + destruct (in_range _ _ x) eqn:Hx; [|done]. destruct (is_letter y) eqn:Hy; [|done].
      destruct (forallb is_letter rest) eqn:Hrest; [|done]. intros _.
      exists x, y, rest. split; [done|]. split; [done|]. split; [done|].
      apply Forall_forall. intros z Hz. rewrite forallb_forall in Hrest.
      apply Hrest. by apply list_elem_of_In.
    + intros (? & ? & ? & [= <- <- <-] & -> & -> & Hrest).
      assert (forallb is_letter rest = true) as ->; [|done].
      apply forallb_forall. intros z Hz%list_elem_of_In.
      rewrite Forall_forall in Hrest. by apply Hrest.
Qed.

(** The first call reads the directory and returns, in the order of the
    directory, the entries that are an upper-case letter followed by one or
    more letters; the list is kept in the module's variable. *)
Theorem getSystemComponents_first_call (mui_system_src : jsstring) (w : World)
    (entries : list jsstring) :
  systemComponents w = None →
  dirs w !! mui_system_src = Some entries →
  ∃ found w',
    getSystemComponents mui_system_src w = (Return found, w') ∧
    found `sublist_of` entries ∧
    (∀ entry, entry ∈ found ↔ entry ∈ entries ∧ component_name entry) ∧
    systemComponents w' = Some found ∧ files w' = files w ∧ dirs w' = dirs w.
Proof.
  intros Hnone Hdir.
  unfold getSystemComponents, bind, read_systemComponents, readdirSync,
    assign_systemComponents, ret.
  rewrite Hnone, Hdir. eexists _, _. split; [reflexivity|].
  split; [apply sublist_filter|]. split; [|done].
  intros entry. rewrite list_elem_of_filter, Is_true_true, systemComponent_re_spec. tauto.
Qed.

Lemma getSystemComponents_first_call_repo :
  ∃ found w',
    getSystemComponents (lit "/repo/packages/mui-system/src") repo_world = (Return found, w') ∧
    found `sublist_of` [lit "Box"; lit "index.js"; lit "Unstable_Grid"; lit "B"; lit "Stack"] ∧
    (∀ entry, entry ∈ found ↔
       entry ∈ [lit "Box"; lit "index.js"; lit "Unstable_Grid"; lit "B"; lit "Stack"]
       ∧ component_name entry) ∧
    systemComponents w' = Some found ∧ files w' = files repo_world
    ∧ dirs w' = dirs repo_world.
Proof. apply getSystemComponents_first_call; by vm_compute. Defined.

(** Once a call has returned, every later call returns the same list and
    changes nothing, whatever has become of the directory in between. *)
Theorem getSystemComponents_cache (mui_system_src : jsstring) (w w' : World)
    (found : list jsstring) :
  getSystemComponents mui_system_src w = (Return found, w') →
  ∀ later,
    systemComponents later = systemComponents w' →
    getSystemComponents mui_system_src later = (Return found, later).
Proof.
  intros Hcall later Hlater.
  assert (systemComponents w' = Some found) as Hfound.
  { revert Hcall.
    unfold getSystemComponents, bind, read_systemComponents, readdirSync,
      assign_systemComponents, ret.
    destruct (systemComponents w) as [cached|] eqn:Hw.
    - by intros [= <- <-].
    - destruct (dirs w !! mui_system_src); [|done]. by intros [= <- <-]. }
  apply getSystemComponents_cached. by rewrite Hlater.
Qed.

(** The directory is gone, the list is still returned. *)
Lemma getSystemComponents_cache_repo :
  getSystemComponents (lit "/repo/packages/mui-system/src")
    {| files := ∅; dirs := ∅; systemComponents := Some [lit "Box"; lit "Stack"] |}
  = (Return [lit "Box"; lit "Stack"],
     {| files := ∅; dirs := ∅; systemComponents := Some [lit "Box"; lit "Stack"] |}).
Proof.
  apply (getSystemComponents_cache (lit "/repo/packages/mui-system/src") repo_world
           {| files := files repo_world; dirs := dirs repo_world;
              systemComponents := Some [lit "Box"; lit "Stack"] |}).
  - by vm_compute.
  - reflexivity.
Defined.

(** A call never touches the files or the directories. When it throws, the
    directory could not be read, the world is as it was and the variable is
    still [undefined], so that a later call reads the directory again. *)
Theorem getSystemComponents_effects (mui_system_src : jsstring) (w : World) :
  files (getSystemComponents mui_system_src w).2 = files w ∧
  dirs (getSystemComponents mui_system_src w).2 = dirs w ∧
  (∀ e, (getSystemComponents mui_system_src w).1 = Throw e →
        e = ENOENT mui_system_src ∧
        (getSystemComponents mui_system_src w).2 = w ∧
        systemComponents w = None ∧ dirs w !! mui_system_src = None).
Proof.
  unfold getSystemComponents, bind, read_systemComponents, readdirSync,
    assign_systemComponents, ret.
  destruct (systemComponents w) as [cached|] eqn:Hw; [done|].
  destruct (dirs w !! mui_system_src); [done|].
  split; [done|]. split; [done|]. by intros e [= <-].
Qed.

Lemma getSystemComponents_effects_no_directory :
  ENOENT (lit "/repo/packages/mui-system/src") = ENOENT (lit "/repo/packages/mui-system/src") ∧
  (getSystemComponents (lit "/repo/packages/mui-system/src") one_file_world).2
    = one_file_world ∧
  systemComponents one_file_world = None ∧
  dirs one_file_world !! lit "/repo/packages/mui-system/src" = None.
Proof.
  apply (proj2 (proj2 (getSystemComponents_effects (lit "/repo/packages/mui-system/src")
                         one_file_world))).
  reflexivity.
Defined.

(** ** [split] and [join] *)

Module LinesFacts.
Import JS JSFacts.

Lemma split_not_nil (s : jsstring) (c : char) : split s c ≠ [].
Proof. by destruct (split_head s c) as (piece & pieces & -> & _). Qed.

(** A text without the separator is one piece. *)
Lemma split_one (s : jsstring) (c : char) : c ∉ s → split s c = [s].
Proof.
  induction s as [|x s IH]; [done|]. intros [Hx Hs]%not_elem_of_cons. simpl.
  destruct (char_eqb x c) eqn:Heq; [by apply char_eqb_eq in Heq|]. by rewrite IH.
Qed.

(** The first piece ends at the first separator. *)
Lemma split_app (piece rest : jsstring) (c : char) :
  c ∉ piece → split (piece ++ c :: rest) c = piece :: split rest c.
Proof.
  induction piece as [|x piece IH]; simpl.
  - intros _. by rewrite (proj2 (char_eqb_eq c c)).
  - intros [Hx Hpiece]%not_elem_of_cons.
    destruct (char_eqb x c) eqn:Heq; [by apply char_eqb_eq in Heq|]. by rewrite IH.
Qed.

(** No piece holds the separator. *)
Lemma split_pieces (s : jsstring) (c : char) : Forall (fun piece => c ∉ piece) (split s c).
Proof.
  induction s as [|x s IH]; simpl.
  - constructor; [apply not_elem_of_nil|constructor].
  - destruct (char_eqb x c) eqn:Heq.
    + constructor; [apply not_elem_of_nil|done].
    + destruct (split s c) as [|piece pieces] eqn:Hsplit;
        [by destruct (split_not_nil s c)|].
      apply Forall_cons in IH as [Hpiece Hpieces]. constructor; [|done].
      apply not_elem_of_cons. split; [|done].
      intros <-. by rewrite (proj2 (char_eqb_eq c c)) in Heq.
Qed.

Lemma Array_join_cons (line : jsstring) (lines : list jsstring) (sep : jsstring) :
  lines ≠ [] → Array_join (line :: lines) sep = line ++ sep ++ Array_join lines sep.
Proof. by destruct lines. Qed.

(** Joining the pieces with the separator gives the text back. *)
Lemma join_split (s : jsstring) (c : char) : Array_join (split s c) [c] = s.
Proof.
  induction s as [|x s IH]; [done|]. simpl. destruct (char_eqb x c) eqn:Heq.
  - apply char_eqb_eq in Heq as ->. rewrite Array_join_cons by apply split_not_nil.
    by rewrite IH.
  - destruct (split s c) as [|piece [|piece' pieces]] eqn:Hsplit.
    + by destruct (split_not_nil s c).
    + simpl in *. by rewrite IH.
    + rewrite Array_join_cons by done. rewrite Array_join_cons in IH by done.
      by rewrite <- IH.
Qed.

(** Splitting the join of lines that hold no separator gives the lines
    back, when there is a line at all. *)
Lemma split_join (lines : list jsstring) (c : char) :
  lines ≠ [] → Forall (fun line => c ∉ line) lines →
  split (Array_join lines [c]) c = lines.
Proof.
  induction lines as [|line lines IH]; [done|]. intros _ [Hline Hlines]%Forall_cons.
  destruct lines as [|line' lines].
  - by apply split_one.
  - rewrite Array_join_cons by done. change ([c] ++ ?l) with (c :: l).
    rewrite split_app by done. by rewrite IH.
Qed.

Lemma Array_join_app (lines1 lines2 : list jsstring) (sep : jsstring) :
  lines1 ≠ [] → lines2 ≠ [] →
  Array_join (lines1 ++ lines2) sep = Array_join lines1 sep ++ sep ++ Array_join lines2 sep.
Proof.
  induction lines1 as [|line lines1 IH]; [done|]. intros _ H2.
  destruct lines1 as [|line' lines1].
  - simpl. by destruct lines2.
  - change ((line :: line' :: lines1) ++ lines2) with (line :: (line' :: lines1) ++ lines2).
    rewrite Array_join_cons by done. rewrite IH by done.
    rewrite (Array_join_cons line (line' :: lines1)) by done. by rewrite <- !app_assoc.
Qed.

(** The lines of several texts, joined, are the texts joined. *)
Lemma join_bind_split (texts : list jsstring) (c : char) :
  Array_join (texts ≫= (fun text => split text c)) [c] = Array_join texts [c].
Proof.
  induction texts as [|text texts IH]; [done|]. rewrite bind_cons.
  destruct texts as [|text' texts].
  - change ([] ≫= _) with (@nil jsstring). rewrite app_nil_r. apply join_split.
  - rewrite Array_join_app; [|apply split_not_nil|].
    + rewrite IH, join_split. by rewrite (Array_join_cons text (text' :: texts)).
    + rewrite bind_cons. intros [Hnil _]%app_eq_nil. by apply split_not_nil in Hnil.
Qed.

(** A filter keeps a list whose elements all pass. *)
Lemma filter_all {A} (P : A → Prop) `{∀ x, Decision (P x)} (l : list A) :
  Forall P l → filter P l = l.
Proof.
  induction 1 as [|x l Hx Hl IH]; [done|]. rewrite filter_cons_True by done. by rewrite IH.
Qed.

End LinesFacts.

(** ** [getSymbolDescription] and [getSymbolJSDocTags] *)

Section SymbolDocsFacts.
Import LinesFacts.

Context {Symbol TypeChecker : Type}.
Variable getDocumentationComment : Symbol → TypeChecker → list SymbolDisplayPart.t.
Variable getJsDocTags : Symbol → list JSDocTagInfo.t.

(** The kept lines hold no line feed, so that splitting their join gives
    them back. *)
Lemma split_description (symbol : Symbol) (project : TypeScriptProject TypeChecker) :
  kept_lines _ _ getDocumentationComment symbol project ≠ [] →
  split (getSymbolDescription _ _ getDocumentationComment symbol project) LF
  = kept_lines _ _ getDocumentationComment symbol project.
Proof.
  intros Hkept. unfold getSymbolDescription.
  fold (kept_lines _ _ getDocumentationComment symbol project).
  apply split_join; [done|]. unfold kept_lines.
  apply Forall_forall. intros line [_ Hline]%list_elem_of_filter.
  apply list_elem_of_bind in Hline as (comment & Hline & _).
  pose proof (split_pieces (SymbolDisplayPart.text comment) LF) as Hpieces.
  rewrite Forall_forall in Hpieces. by apply Hpieces.
Qed.

(** When a line is kept at all, the lines of the description are the lines of
    the comments that do not start with [TODO], in their order; when none is
    kept, the description is empty. *)
Theorem getSymbolDescription_lines (symbol : Symbol)
    (project : TypeScriptProject TypeChecker) :
  (kept_lines _ _ getDocumentationComment symbol project ≠ [] →
   split (getSymbolDescription _ _ getDocumentationComment symbol project) LF
   = kept_lines _ _ getDocumentationComment symbol project) ∧
  (kept_lines _ _ getDocumentationComment symbol project = [] →
   getSymbolDescription _ _ getDocumentationComment symbol project = []).
Proof.
  split; [apply split_description|].
  unfold getSymbolDescription.
  fold (kept_lines _ _ getDocumentationComment symbol project). by intros ->.
Qed.

(** No line of the description starts with [TODO]. *)
Theorem getSymbolDescription_no_TODO (symbol : Symbol)
    (project : TypeScriptProject TypeChecker) (line : jsstring) :
  line ∈ split (getSymbolDescription _ _ getDocumentationComment symbol project) LF →
  startsWith line (lit "TODO") = false.
Proof.
  destruct (kept_lines _ _ getDocumentationComment symbol project) as [|kept rest] eqn:Hkept.
  - unfold getSymbolDescription.
    fold (kept_lines _ _ getDocumentationComment symbol project). rewrite Hkept.
    by intros ->%list_elem_of_singleton.
  - rewrite split_description by by rewrite Hkept.
    by intros [Hline _]%list_elem_of_filter.
Qed.

(** When no line of the comments starts with [TODO], the description is the
    comments joined by line feeds: nothing is lost. *)
Theorem getSymbolDescription_keeps_all (symbol : Symbol)
    (project : TypeScriptProject TypeChecker) :
  (∀ comment line,
     comment ∈ getDocumentationComment symbol (checker _ project) →
     line ∈ split (SymbolDisplayPart.text comment) LF →
     startsWith line (lit "TODO") = false) →
  getSymbolDescription _ _ getDocumentationComment symbol project
  = Array_join (SymbolDisplayPart.text <$> getDocumentationComment symbol (checker _ project))
      [LF].
Proof.
  intros Hlines. unfold getSymbolDescription.
  set (comments := getDocumentationComment symbol (checker _ project)) in *.
  assert (filter (fun line => startsWith line (lit "TODO") = false)
            (comments ≫= (fun comment => split (SymbolDisplayPart.text comment) LF))
          = (SymbolDisplayPart.text <$> comments) ≫= (fun text => split text LF)) as ->.
  { rewrite filter_all.
    - clear. induction comments as [|comment comments IH]; [done|].
      by rewrite fmap_cons, !bind_cons, IH.
    - apply Forall_forall. intros line (comment & Hline & Hcomment)%list_elem_of_bind.
      by apply (Hlines comment). }
  apply join_bind_split.
Qed.

(** Inserting tags with other names leaves a name as it was. *)
Lemma foldl_insert_other (tags : list JSDocTagInfo.t) (obj : gmap jsstring JSDocTagInfo.t)
    (key : jsstring) :
  (∀ tag, tag ∈ tags → JSDocTagInfo.name tag ≠ key) →
  foldl (fun obj tag => <[JSDocTagInfo.name tag := tag]> obj) obj tags !! key = obj !! key.
Proof.
  revert obj. induction tags as [|tag tags IH]; intros obj Hother; [done|]. simpl.
  rewrite IH by (intros; apply Hother; by right).
  apply lookup_insert_ne, Hother. by left.
Qed.

(** The last tag of a name is the one under that name; a name no tag has is
    not a property of the object; and what is under a name is a tag of the
    symbol with that name. *)
Theorem getSymbolJSDocTags_lookup (symbol : Symbol) :
  (∀ before tag after,
     getJsDocTags symbol = before ++ tag :: after →
     (∀ later, later ∈ after → JSDocTagInfo.name later ≠ JSDocTagInfo.name tag) →
     getSymbolJSDocTags _ getJsDocTags symbol !! JSDocTagInfo.name tag = Some tag) ∧
  (∀ key,
     (∀ tag, tag ∈ getJsDocTags symbol → JSDocTagInfo.name tag ≠ key) →
     getSymbolJSDocTags _ getJsDocTags symbol !! key = None) ∧
  (∀ key tag,
     getSymbolJSDocTags _ getJsDocTags symbol !! key = Some tag →
     tag ∈ getJsDocTags symbol ∧ JSDocTagInfo.name tag = key).
Proof.
  unfold getSymbolJSDocTags. split; [|split].
  - intros before tag after -> Hafter. rewrite foldl_app. simpl.
    rewrite foldl_insert_other by done. apply lookup_insert_eq.
  - intros key Hnone. by rewrite foldl_insert_other.
  - intros key tag.
    assert (∀ tags (obj : gmap jsstring JSDocTagInfo.t),
              foldl (fun obj tag => <[JSDocTagInfo.name tag := tag]> obj) obj tags !! key
                = Some tag →
              (tag ∈ tags ∧ JSDocTagInfo.name tag = key) ∨ obj !! key = Some tag) as Hinv.
    { induction tags as [|tag0 tags IH]; intros obj; simpl; [by right|].
      intros [[Hin Hname]|Hobj]%IH.
      - left. split; [by right|done].
      - destruct (decide (JSDocTagInfo.name tag0 = key)) as [Heq|Hne].
        + rewrite <- Heq, lookup_insert_eq in Hobj. injection Hobj as ->.
          left. split; [by left|done].
        + rewrite lookup_insert_ne in Hobj by done. by right. }
    by intros [?|?]%Hinv.
Qed.

End SymbolDocsFacts.

Lemma getSymbolDescription_lines_sample :
  split (getSymbolDescription unit unit (fun _ _ => sample_comment) tt (mkProject unit tt)) LF
  = kept_lines unit unit (fun _ _ => sample_comment) tt (mkProject unit tt).
Proof. apply (proj1 (getSymbolDescription_lines (fun _ _ => sample_comment) tt (mkProject unit tt))). by vm_compute. Defined.

Lemma getSymbolDescription_no_TODO_sample :
  startsWith (lit "It is a node.") (lit "TODO") = false.
Proof.
  apply (getSymbolDescription_no_TODO (fun _ _ => sample_comment) tt (mkProject unit tt)).
  vm_compute. right. left.
Defined.

Example getSymbolDescription_sample :
  getSymbolDescription unit unit (fun _ _ => sample_comment) tt (mkProject unit tt)
  = lit "The content." ++ [LF] ++ lit "It is a node.".
Proof. by vm_compute. Qed.

Lemma getSymbolDescription_keeps_all_sample :
  getSymbolDescription unit unit
    (fun _ _ => [SymbolDisplayPart.mk (lit "It is a node.") (lit "text")]) tt
    (mkProject unit tt)
  = Array_join
      (SymbolDisplayPart.text <$> [SymbolDisplayPart.mk (lit "It is a node.") (lit "text")])
      [LF].
Proof.
  apply (getSymbolDescription_keeps_all
           (fun _ _ => [SymbolDisplayPart.mk (lit "It is a node.") (lit "text")])
           tt (mkProject unit tt)).
  intros comment line ->%list_elem_of_singleton. simpl.
  by intros ->%list_elem_of_singleton.
Defined.

Lemma getSymbolJSDocTags_lookup_sample :
  getSymbolJSDocTags unit (fun _ => sample_tags) tt !! lit "default"
  = Some (JSDocTagInfo.mk (lit "default") (Some [])).
Proof.
  apply (proj1 (getSymbolJSDocTags_lookup (fun _ => sample_tags) tt)
           [JSDocTagInfo.mk (lit "default") None; JSDocTagInfo.mk (lit "deprecated") None]
           (JSDocTagInfo.mk (lit "default") (Some [])) []).
  - reflexivity.
  - intros later Hlater. by apply not_elem_of_nil in Hlater.
Defined.

(** ** [fixPathname] on the pages of the base package *)

Lemma String_replace_skip (x : char) (s pat rep : jsstring) :
  startsWith (x :: s) pat = false →
  String_replace (x :: s) pat rep = x :: String_replace s pat rep.
Proof.
  intros Hstart. unfold String_replace. rewrite (StringIndexOf_unfold (x :: s)), Hstart.
  by destruct (StringIndexOf s pat).
Qed.

(** A pathname under [/base/] is published under [/base-ui/], and
    [/components/] is looked for from the [/] that ends that prefix on. *)
Theorem fixPathname_base (replaceComponentLinks : jsstring → jsstring) (rest : jsstring) :
  fixPathname replaceComponentLinks (lit "/base/" ++ rest)
  = lit "/base-ui"
    ++ String_replace (lit "/" ++ rest) (lit "/components/") (lit "/react-")
    ++ lit "/".
Proof.
  unfold fixPathname.
  replace (startsWith (lit "/base/" ++ rest) (lit "/material")) with false by done.
  replace (startsWith (lit "/base/" ++ rest) (lit "/joy")) with false by done.
  rewrite (proj2 (startsWith_spec (lit "/base/" ++ rest) (lit "/base")))
    by by exists (lit "/" ++ rest).
  rewrite String_replace_prefix.
  change (lit "/base-ui/" ++ rest)
    with (chr "/" :: chr "b" :: chr "a" :: chr "s" :: chr "e" :: chr "-" :: chr "u"
          :: chr "i" :: lit "/" ++ rest).
  by rewrite !String_replace_skip by done.
Qed.

Example fixPathname_base_button :
  fixPathname (fun url => url) (lit "/base/components/button")
  = lit "/base-ui/react-button/".
Proof. by vm_compute. Qed.

(** ** [formatType]: what is cut from the formatter's output *)

(** On the empty string the formatter is not called. On any other string, an
    error of the formatter is the error of [formatType], and from an output of
    the formatter [formatType] cuts as many code units as [type FakeType = ]
    has, and one final line feed, no more. *)
Theorem formatType_result (prettier_format : jsstring → object → Outcome jsstring) :
  formatType prettier_format [] = Return [] ∧
  (∀ rawType e,
     rawType ≠ [] →
     prettier_format (lit "type FakeType = " ++ rawType) formatType_options = Throw e →
     formatType prettier_format rawType = Throw e) ∧
  (∀ rawType head body,
     rawType ≠ [] → length head = 16 →
     prettier_format (lit "type FakeType = " ++ rawType) formatType_options
       = Return (head ++ body ++ [LF]) →
     formatType prettier_format rawType = Return body) ∧
  (∀ rawType head body x,
     rawType ≠ [] → length head = 16 → x ≠ LF →
     prettier_format (lit "type FakeType = " ++ rawType) formatType_options
       = Return (head ++ body ++ [x]) →
     formatType prettier_format rawType = Return (body ++ [x])).
Proof.
  split; [done|]. split; [|split].
  - intros [|x rawType] e Hraw Hthrow; [done|]. unfold formatType. by rewrite Hthrow.
  - intros [|x rawType] head body Hraw Hhead Hout; [done|]. unfold formatType.
    rewrite Hout. change (length (lit "type FakeType = ")) with 16.
    by rewrite <- Hhead, drop_app_length, remove_final_LF_app.
  - intros [|y rawType] head body x Hraw Hhead Hx Hout; [done|]. unfold formatType.
    rewrite Hout. change (length (lit "type FakeType = ")) with 16.
    rewrite <- Hhead, drop_app_length. f_equal. clear -Hx.
    induction body as [|z body IH]; simpl.
    + destruct (char_eqb x LF) eqn:Heq; [by apply char_eqb_eq in Heq|done].
    + destruct (body ++ [x]) eqn:Happ; [by destruct body|]. by rewrite IH.
Qed.

Lemma formatType_result_string :
  formatType format_with_LF (lit "string") = Return (lit "string").
Proof.
  apply (proj1 (proj2 (proj2 (formatType_result format_with_LF)))
           (lit "string") (lit "type FakeType = ") (lit "string")); reflexivity || done.
Defined.

(** ** [getApiPath]: where the fragment starts *)

(** The first [#] of the path [getApiPath] returns is the one before the
    kebab-cased name: the page of the path, up to the [/] after [hooks-api] or
    [components-api], holds no [#]. *)
Theorem getApiPath_fragment (kebabCase : jsstring → jsstring) (demo : Demo)
    (demos : list Demo) (name : jsstring) :
  ∃ page,
    getApiPath kebabCase (demo :: demos) name = Some (page ++ lit "#" ++ kebabCase name) ∧
    (chr "#" ∉ page) ∧
    (∃ cleaned, page = cleaned ++ lit "hooks-api/" ∨ page = cleaned ++ lit "components-api/").
Proof.
  destruct (split_head (demoPathname demo) (chr "#"))
    as (cleaned & pieces & Hsplit & Hnone & _).
  unfold getApiPath. rewrite Hsplit.
  destruct (startsWith name (lit "use")).
  - exists (cleaned ++ lit "hooks-api/"). split; [by rewrite <- !app_assoc|]. split.
    + apply not_elem_of_app. split; [done|]. apply (bool_decide_unpack _). by vm_compute.
    + exists cleaned. by left.
  - exists (cleaned ++ lit "components-api/"). split; [by rewrite <- !app_assoc|]. split.
    + apply not_elem_of_app. split; [done|]. apply (bool_decide_unpack _). by vm_compute.
    + exists cleaned. by right.
Qed.

(** ** [extractPackageFile]: the derived package name *)

(** [muiPackage], like [packagePath], is not empty and holds no [/]. *)
Theorem extractPackageFile_muiPackage_segment (platform : Platform)
    (filePath mui : jsstring) :
  muiPackage (extractPackageFile platform filePath) = Some mui →
  mui ≠ [] ∧ chr "/" ∉ mui.
Proof.
  intros Hmui.
  assert (∃ directory, packagePath (extractPackageFile platform filePath) = Some directory ∧
            mui = String_replace directory (lit "x-") (lit "mui-")) as (directory & Hdir & ->).
  { revert Hmui. unfold extractPackageFile. simpl.
    destruct (match exec packageFile_re _ with Some m => m !! 1 | None => None end)
      as [directory|]; [|done].
    intros [= <-]. by exists directory. }
  destruct (extractPackageFile_exec platform filePath) as [Hexec _].
  apply Hexec in Hdir as (res & Hres & H1).
  apply packageFile_exec in Hres
    as (? & ? & directory' & ? & ? & ? & ? & _ & Hne & Hslash & _ & _ & _ & _ & H1' & _).
  pose proof (eq_trans (eq_sym H1') H1) as [= ->].
  destruct (String_replace_spec directory (lit "x-") (lit "mui-"))
    as [[_ ->]|(a & b & [-> _] & ->)]; [done|].
  apply not_elem_of_app in Hslash as [Ha [_ Hb]%not_elem_of_app]. split.
  - by destruct a.
  - apply not_elem_of_app. split; [done|]. apply not_elem_of_app. split; [|done].
    apply (bool_decide_unpack _). by vm_compute.
Qed.

Lemma extractPackageFile_muiPackage_segment_DataGrid :
  lit "mui-data-grid" ≠ [] ∧ chr "/" ∉ lit "mui-data-grid".
Proof.
  apply (extractPackageFile_muiPackage_segment posix
           (lit "/repo/packages/x-data-grid/src/DataGrid/DataGrid.tsx")).
  by vm_compute.
Defined.
